(** * Entity tags for payloads and file metadata: a model of [index.js]

    The development follows the module top to bottom: the external
    collaborators it calls (UTF-8 encoding, SHA-1, base64, number
    rendering), the two process-wide caches, the private functions
    [entitytag], [isstats] and [stattag], and the exported function
    [etag].  The theorems about them come last. *)

From Stdlib Require Import NArith ZArith List String Ascii Strings.Byte Lia.
From Stdlib Require Import DecimalString HexadecimalString.
From Stdlib Require DecimalPos DecimalN DecimalZ HexadecimalPos HexadecimalN HexadecimalZ.
From stdpp Require Import base option list strings gmap.

Local Open Scope N_scope.

(** ** Values handed to the module *)

(** A JavaScript string is a sequence of UTF-16 code units, each below
    [2^16]; [length] and [charCodeAt] count code units. *)
Definition jsstring := list N.

(** A [Buffer] is a mutable object.  A program value of that type is a
    reference; the bytes it designates live in the heap of the caller,
    which the module reads and never writes. *)
Definition ref := nat.
Definition heap := ref -> list byte.

(** ** The digest engine: what [crypto] and [Buffer] compute *)

Module Utf8.

Definition is_high_surrogate (c : N) : bool := (0xD800 <=? c) && (c <=? 0xDBFF).
Definition is_low_surrogate (c : N) : bool := (0xDC00 <=? c) && (c <=? 0xDFFF).

Definition byte_of (n : N) : byte :=
  match Byte.of_N (n mod 256) with Some b => b | None => x00 end.

(** The bytes of one Unicode scalar value. *)
Definition encode_scalar (c : N) : list byte :=
  if c <? 0x80 then [byte_of c]
  else if c <? 0x800 then
    [byte_of (N.lor 0xC0 (N.shiftr c 6)); byte_of (N.lor 0x80 (N.land c 0x3F))]
  else if c <? 0x10000 then
    [byte_of (N.lor 0xE0 (N.shiftr c 12));
     byte_of (N.lor 0x80 (N.land (N.shiftr c 6) 0x3F));
     byte_of (N.lor 0x80 (N.land c 0x3F))]
  else
    [byte_of (N.lor 0xF0 (N.shiftr c 18));
     byte_of (N.lor 0x80 (N.land (N.shiftr c 12) 0x3F));
     byte_of (N.lor 0x80 (N.land (N.shiftr c 6) 0x3F));
     byte_of (N.lor 0x80 (N.land c 0x3F))].

(** A surrogate that has no partner is written as U+FFFD. *)
Definition replacement : list byte := [xef; xbf; xbd].

Fixpoint encode (s : jsstring) : list byte :=
  match s with
  | [] => []
  | c :: rest =>
      if is_high_surrogate c then
        match rest with
        | d :: rest' =>
            if is_low_surrogate d
            then encode_scalar (0x10000 + N.shiftl (c - 0xD800) 10 + (d - 0xDC00))
                   ++ encode rest'
            else replacement ++ encode rest
        | [] => replacement
        end
      else if is_low_surrogate c then replacement ++ encode rest
      else encode_scalar c ++ encode rest
  end.

End Utf8.

(** [Buffer.byteLength(s, 'utf8')]. *)
Definition byteLength (s : jsstring) : N := N.of_nat (length (Utf8.encode s)).

Module Sha1.

Definition w32 (x : N) : N := N.land x 0xFFFFFFFF.
Definition add32 (x y : N) : N := w32 (x + y).
Definition rotl (n x : N) : N := w32 (N.lor (N.shiftl x n) (N.shiftr x (32 - n))).
Definition not32 (x : N) : N := N.lxor x 0xFFFFFFFF.

(** Big-endian rendering of [x] on [n] bytes. *)
Fixpoint be_bytes (n : nat) (x : N) : list N :=
  match n with
  | O => []
  | S n' => N.land (N.shiftr x (8 * N.of_nat n')) 0xFF :: be_bytes n' x
  end.

(** Message, one [1] bit, zeros up to 56 modulo 64, bit length on 64 bits. *)
Definition pad (msg : list N) : list N :=
  let len := N.of_nat (length msg) in
  let zeros := N.to_nat ((119 - len mod 64) mod 64) in
  msg ++ 0x80 :: repeat 0 zeros ++ be_bytes 8 (8 * len).

Fixpoint be_words (bs : list N) (fuel : nat) : list N :=
  match fuel, bs with
  | S fuel', a :: b :: c :: d :: rest =>
      (N.shiftl a 24 + N.shiftl b 16 + N.shiftl c 8 + d) :: be_words rest fuel'
  | _, _ => []
  end.

(** The eighty words of the message schedule, from the sixteen of a block;
    [window] holds the last sixteen words computed. *)
Fixpoint schedule (n : nat) (window : list N) : list N :=
  match n with
  | O => []
  | S n' =>
      let x := rotl 1 (N.lxor (N.lxor (nth 13 window 0) (nth 8 window 0))
                              (N.lxor (nth 2 window 0) (nth 0 window 0))) in
      x :: schedule n' (tl window ++ [x])
  end.

Definition f (t : nat) (b c d : N) : N :=
  if (t <? 20)%nat then N.lor (N.land b c) (N.land (not32 b) d)
  else if (t <? 40)%nat then N.lxor (N.lxor b c) d
  else if (t <? 60)%nat then N.lor (N.lor (N.land b c) (N.land b d)) (N.land c d)
  else N.lxor (N.lxor b c) d.

Definition k (t : nat) : N :=
  if (t <? 20)%nat then 0x5A827999
  else if (t <? 40)%nat then 0x6ED9EBA1
  else if (t <? 60)%nat then 0x8F1BBCDC
  else 0xCA62C1D6.

Record regs := Regs { ra : N; rb : N; rc : N; rd : N; re : N }.

Definition round (r : regs) (tw : nat * N) : regs :=
  let '(t, w) := tw in
  let temp := add32 (add32 (add32 (add32 (rotl 5 (ra r)) (f t (rb r) (rc r) (rd r)))
                                  (re r)) (k t)) w in
  Regs temp (ra r) (rotl 30 (rb r)) (rc r) (rd r).

Definition block (h : regs) (ws : list N) : regs :=
  let w80 := ws ++ schedule 64 ws in
  let r := fold_left round (combine (seq 0 80) w80) h in
  Regs (add32 (ra h) (ra r)) (add32 (rb h) (rb r)) (add32 (rc h) (rc r))
       (add32 (rd h) (rd r)) (add32 (re h) (re r)).

Fixpoint blocks (h : regs) (ws : list N) (fuel : nat) : regs :=
  match fuel with
  | O => h
  | S fuel' =>
      match ws with
      | [] => h
      | _ => blocks (block h (firstn 16 ws)) (skipn 16 ws) fuel'
      end
  end.

Definition init : regs :=
  Regs 0x67452301 0xEFCDAB89 0x98BADCFE 0x10325476 0xC3D2E1F0.

(** The twenty bytes of the digest. *)
Definition digest (msg : list byte) : list N :=
  let p := pad (map Byte.to_N msg) in
  let ws := be_words p (length p) in
  let r := blocks init ws (length ws) in
  be_bytes 4 (ra r) ++ be_bytes 4 (rb r) ++ be_bytes 4 (rc r)
    ++ be_bytes 4 (rd r) ++ be_bytes 4 (re r).

End Sha1.

Module Base64.

Definition alphabet : string :=
  "ABCDEFGHIJKLMNOPQRSTUVWXYZabcdefghijklmnopqrstuvwxyz0123456789+/".

Definition digit (n : N) : ascii :=
  match String.get (N.to_nat n) alphabet with Some c => c | None => "="%char end.

Fixpoint encode (bs : list N) (fuel : nat) : string :=
  match fuel with
  | O => EmptyString
  | S fuel' =>
      match bs with
      | [] => EmptyString
      | [a] =>
          String (digit (N.shiftr a 2))
            (String (digit (N.shiftl (N.land a 3) 4)) "==")
      | [a; b] =>
          String (digit (N.shiftr a 2))
            (String (digit (N.lor (N.shiftl (N.land a 3) 4) (N.shiftr b 4)))
               (String (digit (N.shiftl (N.land b 15) 2)) "="))
      | a :: b :: c :: rest =>
          String (digit (N.shiftr a 2))
            (String (digit (N.lor (N.shiftl (N.land a 3) 4) (N.shiftr b 4)))
               (String (digit (N.lor (N.shiftl (N.land b 15) 2) (N.shiftr c 6)))
                  (String (digit (N.land c 63)) (encode rest fuel'))))
      end
  end.

End Base64.

(** [crypto.createHash('sha1').update(bytes).digest('base64')]. *)
Definition sha1_base64 (bs : list byte) : string :=
  let d := Sha1.digest bs in Base64.encode d (length d).

(** The characters of an ASCII literal as code units. *)
Definition js (s : string) : jsstring :=
  map (fun c => N_of_ascii c) (list_ascii_of_string s).

(** ** Numbers as text *)

(** [String(n)] and [n.toString(16)] for the integers the module renders:
    lengths, bytes, code units, inode numbers, sizes and times in
    milliseconds.  The numbers of a descriptor are taken to be integers
    that a double holds exactly; fractions, [NaN] and infinities are left
    out. *)
Definition dec_N (n : N) : string := DecimalString.NilZero.string_of_uint (N.to_uint n).
Definition hex_N (n : N) : string := HexadecimalString.NilZero.string_of_uint (N.to_hex_uint n).
Definition dec_Z (z : Z) : string := DecimalString.NilZero.string_of_int (Z.to_int z).
Definition hex_Z (z : Z) : string := HexadecimalString.NilZero.string_of_int (Z.to_hex_int z).

(** ** Entities *)

(** What [entitytag] receives: a string or a [Buffer]. *)
Inductive payload :=
| PString (s : jsstring)
| PBuffer (r : ref).

#[global] Instance payload_eq_dec : EqDecision payload.
Proof. solve_decision. Defined.

(** A genuine [fs.Stats]; a [Date] is its time value in milliseconds. *)
Module fs.
Record Stats := mkStats { ctime : Z; mtime : Z; ino : Z; size : Z }.
End fs.

(** A property of a plain object, as far as [isstats] looks at it. *)
Inductive property :=
| PDate (t : Z)
| PNumber (n : Z)
| POther.

(** A plain object: the four properties [isstats] asks for, each present
    or not. *)
Record object := Object {
  o_ctime : option property;
  o_mtime : option property;
  o_ino : option property;
  o_size : option property
}.

Inductive value :=
| VUndefined
| VNull
| VBoolean (b : bool)
| VNumber (n : Z)
| VString (s : jsstring)
| VBuffer (r : ref)
| VStats (st : fs.Stats)
| VObject (o : object).

(** The second argument of [etag]: [weak] is [None] when the property is
    missing or is not a boolean. *)
Record options := Options { weak : option bool }.

Inductive error :=
| TypeError (message : string).

Inductive outcome :=
| Return (t : string)
| Throw (e : error).

(** ** Cache configuration *)

Definition HASH_CACHE_SIZE : nat := 1000.
Definition STAT_CACHE_TTL : Z := 5000.

Record cached_hash := CachedHash { entity : payload; tag : string }.
Record cached_stat := CachedStat { strongTag : string; weakTag : string; timestamp : Z }.

Record caches := Caches {
  hashCache : gmap string cached_hash;
  hashCacheKeys : list string;
  statCache : gmap string cached_stat
}.

(** The module as loaded: two empty maps and an empty key list. *)
Definition initial : caches := Caches ∅ [] ∅.

(** The double quote that opens and closes a tag. *)
Definition quote : string := String "034"%char EmptyString.

Definition EMPTY_TAG : string := quote +:+ "0-2jmj7l5rSw0yVb/vlWAYkK/YBwk" +:+ quote.
Definition WEAK_EMPTY_TAG : string := "W/" +:+ EMPTY_TAG.

(** ** [entitytag] *)

Section Entitytag.

Variable h : heap.

(** [entity.length]: code units of a string, bytes of a [Buffer]. *)
Definition payload_length (p : payload) : nat :=
  match p with
  | PString s => length s
  | PBuffer r => length (h r)
  end.

(** [len] of the source. *)
Definition byte_len (p : payload) : N :=
  match p with
  | PString s => byteLength s
  | PBuffer r => N.of_nat (length (h r))
  end.

(** [s.charCodeAt(i)] as text: a code unit, or [NaN] past the end. *)
Definition charCodeAt (s : jsstring) (i : N) : string :=
  match nth_error s (N.to_nat i) with
  | Some c => dec_N c
  | None => "NaN"
  end.

(** [b[i]] as text: a byte, or [undefined] past the end. *)
Definition byteAt (b : list byte) (i : N) : string :=
  match nth_error b (N.to_nat i) with
  | Some x => dec_N (Byte.to_N x)
  | None => "undefined"
  end.

Definition cacheKey (p : payload) : string :=
  let len := byte_len p in
  match p with
  | PBuffer r => dec_N len +:+ "-" +:+ byteAt (h r) 0 +:+ "-" +:+ byteAt (h r) (len - 1)
  | PString s => dec_N len +:+ "-" +:+ charCodeAt s 0 +:+ "-" +:+ charCodeAt s (len - 1)
  end.

(** The bytes fed to [update(entity, 'utf8')]. *)
Definition payload_bytes (p : payload) : list byte :=
  match p with
  | PString s => Utf8.encode s
  | PBuffer r => h r
  end.

(** Lines 78 to 85: the tag of a payload, computed from its bytes. *)
Definition compute_tag (p : payload) : string :=
  let hash := String.substring 0 27 (sha1_base64 (payload_bytes p)) in
  quote +:+ hex_N (byte_len p) +:+ "-" +:+ hash +:+ quote.

(** [a === b]: two strings are identical when their code units are, two
    Buffers when they are the same object. *)
Definition strict_equal (a b : payload) : bool := bool_decide (a = b).

(** Lines 87 to 93: make room when the map is full, then record the key
    and store the entry.  [shift] on an empty list gives [undefined],
    which [delete] does not find. *)
Definition store (key : string) (e : cached_hash) (c : caches) : caches :=
  let '(keys, m) :=
    if (HASH_CACHE_SIZE <=? size (hashCache c))%nat then
      match hashCacheKeys c with
      | oldestKey :: rest => (rest, delete oldestKey (hashCache c))
      | [] => ([], hashCache c)
      end
    else (hashCacheKeys c, hashCache c) in
  Caches (<[key := e]> m) (keys ++ [key]) (statCache c).

Definition entitytag (p : payload) (weak : bool) (c : caches) : string * caches :=
  if (payload_length p =? 0)%nat then
    (if weak then WEAK_EMPTY_TAG else EMPTY_TAG, c)
  else
    let key := cacheKey p in
    let cached := hashCache c !! key in
    match cached with
    | Some e =>
        if strict_equal (entity e) p then
          (if weak then "W/" +:+ tag e else tag e, c)
        else
          let t := compute_tag p in
          (if weak then "W/" +:+ t else t, store key (CachedHash p t) c)
    | None =>
        let t := compute_tag p in
        (if weak then "W/" +:+ t else t, store key (CachedHash p t) c)
    end.

End Entitytag.

(** ** [isstats] *)

Definition is_date (p : option property) : bool :=
  match p with Some (PDate _) => true | _ => false end.

Definition is_number (p : option property) : bool :=
  match p with Some (PNumber _) => true | _ => false end.

Definition isstats (obj : value) : bool :=
  match obj with
  | VStats _ => true
  | VObject o =>
      is_date (o_ctime o) && is_date (o_mtime o)
        && is_number (o_ino o) && is_number (o_size o)
  | _ => false
  end.

(** ** [stattag] *)

(** What [stattag] reads from its argument: [stat.mtime.getTime()],
    [stat.size] and [stat.ino] (and [ctime], which it never reads). *)
Definition stat_fields (v : value) : option fs.Stats :=
  match v with
  | VStats st => Some st
  | VObject (Object (Some (PDate c)) (Some (PDate m)) (Some (PNumber i)) (Some (PNumber s))) =>
      Some (fs.mkStats c m i s)
  | _ => None
  end.

Definition statKey (stat : fs.Stats) : string :=
  dec_Z (fs.ino stat) +:+ "-" +:+ dec_Z (fs.mtime stat).

Definition stat_tag (stat : fs.Stats) : string :=
  quote +:+ hex_Z (fs.size stat) +:+ "-" +:+ hex_Z (fs.mtime stat) +:+ quote.

(** Lines 191 to 202: once the map has grown past the threshold, delete
    every key whose entry is as old as the time to live or older. *)
Definition sweep (now : Z) (m : gmap string cached_stat) : gmap string cached_stat :=
  if (HASH_CACHE_SIZE <? size m)%nat then
    let keysToDelete :=
      (filter (λ kv, (STAT_CACHE_TTL ≤ now - timestamp kv.2)%Z) (map_to_list m)).*1 in
    fold_left (λ m' key, delete key m') keysToDelete m
  else m.

(** [now] is what [Date.now()] answers during the call. *)
Definition stattag (now : Z) (stat : fs.Stats) (weak : bool) (c : caches) : string * caches :=
  let key := statKey stat in
  let cached := statCache c !! key in
  let fresh :=
    match cached with
    | Some e => (now - timestamp e <? STAT_CACHE_TTL)%Z
    | None => false
    end in
  match cached, fresh with
  | Some e, true => (if weak then weakTag e else strongTag e, c)
  | _, _ =>
      let t := stat_tag stat in
      let wt := "W/" +:+ t in
      let m := <[key := CachedStat t wt now]> (statCache c) in
      (if weak then wt else t, Caches (hashCache c) (hashCacheKeys c) (sweep now m))
  end.

(** ** [etag] *)

Definition is_nullish (v : value) : bool :=
  match v with VUndefined | VNull => true | _ => false end.

Definition is_string (v : value) : bool :=
  match v with VString _ => true | _ => false end.

Definition isBuffer (v : value) : bool :=
  match v with VBuffer _ => true | _ => false end.

Definition as_payload (v : value) : option payload :=
  match v with
  | VString s => Some (PString s)
  | VBuffer r => Some (PBuffer r)
  | _ => None
  end.

Definition required : error := TypeError "argument entity is required".
Definition unsupported : error :=
  TypeError "argument entity must be string, Buffer, or fs.Stats".
(** What the engine raises when a property of [undefined] is read; the
    private functions would meet it on an argument of the wrong kind. *)
Definition not_readable : error := TypeError "Cannot read properties of undefined".

Definition etag (h : heap) (now : Z) (v : value) (opts : option options) (c : caches)
  : outcome * caches :=
  if is_nullish v then (Throw required, c)
  else
    let isStats := isstats v in
    let wk :=
      match opts with
      | Some (Options (Some b)) => b
      | _ => isStats
      end in
    if negb isStats && negb (is_string v) && negb (isBuffer v) then (Throw unsupported, c)
    else if isStats then
      match stat_fields v with
      | Some stat => let '(t, c') := stattag now stat wk c in (Return t, c')
      | None => (Throw not_readable, c)
      end
    else
      match as_payload v with
      | Some p => let '(t, c') := entitytag h p wk c in (Return t, c')
      | None => (Throw not_readable, c)
      end.

(** ** Sequences of calls *)

Record call := Call { c_entity : value; c_options : option options; c_now : Z }.

Definition step (h : heap) (c : caches) (k : call) : caches :=
  (etag h (c_now k) (c_entity k) (c_options k) c).2.

(** The caches after a sequence of calls, the heap left alone meanwhile. *)
Definition run (h : heap) (c : caches) (ks : list call) : caches :=
  fold_left (step h) ks c.

(** A string or a [Buffer] as an argument of [etag]. *)
Definition value_of (p : payload) : value :=
  match p with
  | PString s => VString s
  | PBuffer r => VBuffer r
  end.

(** [weak] as [etag] settles it for a payload and for a descriptor. *)
Definition weak_of (opts : option options) (default : bool) : bool :=
  match opts with
  | Some (Options (Some b)) => b
  | _ => default
  end.

(** [weak ? 'W/' + t : t]. *)
Definition render (wk : bool) (t : string) : string :=
  if wk then "W/" +:+ t else t.

(** Every entry of the content cache carries the tag of the payload it
    stores. *)
Definition hash_ok (h : heap) (c : caches) : Prop :=
  ∀ key e, hashCache c !! key = Some e → tag e = compute_tag h (entity e).

(** A heap without Buffers, and the two explicit settings of
    [options.weak]. *)
Definition no_heap : heap := λ _, [].
Definition strong : option options := Some (Options (Some false)).
Definition weakly : option options := Some (Options (Some true)).

(** What a miss stores for a payload, with the key it is stored under. *)
Definition entry_of (h : heap) (p : payload) : string * cached_hash :=
  (cacheKey h p, CachedHash p (compute_tag h p)).

(** ** The tags in the words of the specification *)


(** A metadata tag: size and modification time in hexadecimal. *)
Definition metadata_tag_spec (size mtime : Z) : string :=
  quote +:+ hex_Z size +:+ "-" +:+ hex_Z mtime +:+ quote.




(** ** Sample inputs *)

Definition hello : payload := PString (js "Hello World").
Definition aXa : payload := PString (js "aXa").
Definition aYa : payload := PString (js "aYa").

(** Two Buffers that differ in their middle byte, and an empty one. *)
Definition two_buffers : heap :=
  λ r, match r with
       | 0%nat => [x01; x02; x03]
       | 1%nat => [x01; x09; x03]
       | _ => []
       end.

(** The same heap after the caller has written [9] into the middle of
    Buffer [0]. *)
Definition rewritten : heap :=
  λ r, match r with
       | 0%nat => [x01; x09; x03]
       | 1%nat => [x01; x09; x03]
       | _ => []
       end.

Definition entity_call (p : payload) : call := Call (value_of p) None 0.

(** Distinct two-letter strings, with code units between 32 and 99. *)
Definition filler (i : nat) : payload :=
  PString [N.of_nat (32 + i / 68); N.of_nat (32 + i mod 68)].

(** A key read as a number in base 256, and a test that a list of numbers
    goes up strictly: a cheap way to see that keys differ. *)
Definition key_code (key : string) : N :=
  fold_left (λ acc c, acc * 256 + N_of_ascii c) (list_ascii_of_string key) 0.

Fixpoint increasing (l : list N) : bool :=
  match l with
  | a :: (b :: _) as rest => (a <? b) && increasing rest
  | _ => true
  end.

(** Two strings that share a key, then a thousand and one strings with
    keys of their own. *)
Definition overflow_calls : list call :=
  entity_call aXa :: entity_call aYa :: map (λ i, entity_call (filler i)) (seq 0 1001).

Definition a_file : fs.Stats := fs.mkStats 0 0 1 0.
Definition a_longer_file : fs.Stats := fs.mkStats 0 0 1 5.

(** The caches after one call on [a_file] at time 0. *)
Definition a_file_cached : caches := run no_heap initial [Call (VStats a_file) None 0].

(** The caches after one call on [hello]. *)
Definition hello_cached : caches := run no_heap initial [entity_call hello].

(** The thousand strings that follow [filler 0]. *)
Definition fillers : list payload := filler <$> seq 1 1000.

(** ** Invariants of the content cache *)

(** Every key of the map is still in the key list. *)
Definition keys_listed (c : caches) : Prop :=
  ∀ key, is_Some (hashCache c !! key) → key ∈ hashCacheKeys c.


(** The key list names each key of the map once and names nothing else,
    and the map is within its capacity. *)
Definition within_capacity (c : caches) : Prop :=
  NoDup (hashCacheKeys c)
  ∧ (∀ key, key ∈ hashCacheKeys c ↔ is_Some (hashCache c !! key))
  ∧ (size (hashCache c) ≤ HASH_CACHE_SIZE)%nat.

(** A call that does not find, under the key of its payload, the entry of
    another payload. *)
Definition collision_free (h : heap) (c : caches) (v : value) : Prop :=
  ∀ p e, as_payload v = Some p → hashCache c !! cacheKey h p = Some e → entity e = p.

(** Once the cache holds the payload, or when the payload is empty, a call
    on it finds what it needs. *)
Definition settled (h : heap) (c : caches) (p : payload) : Prop :=
  payload_length h p = 0%nat
  ∨ ∃ e, hashCache c !! cacheKey h p = Some e ∧ entity e = p.

(** The tag such a call returns. *)
Definition settled_tag (h : heap) (c : caches) (p : payload) : string :=
  if decide (payload_length h p = 0%nat) then EMPTY_TAG
  else match hashCache c !! cacheKey h p with
       | Some e => tag e
       | None => EMPTY_TAG
       end.

(** The two calls [etag(p); etag(p')], made [n] times over. *)
Definition alternate (p p' : payload) (n : nat) : list call :=
  concat (replicate n [entity_call p; entity_call p']).

(** ** Invariant of the metadata cache *)

(** Every entry holds the strong tag of a descriptor that has the key of
    the entry, and that tag behind [W/] as its weak tag. *)
Definition stat_ok (c : caches) : Prop :=
  ∀ key e, statCache c !! key = Some e →
    weakTag e = "W/" +:+ strongTag e
    ∧ ∃ stat, statKey stat = key ∧ strongTag e = stat_tag stat.

(** ** Text without a dash *)

(** Digits hold no dash, which is what lets a key or a tag be read back. *)
Fixpoint dashless (s : string) : bool :=
  match s with
  | EmptyString => true
  | String c s' => negb (Ascii.eqb c "-") && dashless s'
  end.

(** ** More sample inputs *)

(** A thousand and one files told apart by their inode numbers, each tagged
    at time 0. *)
Definition file (i : nat) : fs.Stats := fs.mkStats 0 0 (Z.of_nat i) 0.
Definition stat_call (stat : fs.Stats) : call := Call (VStats stat) None 0.
Definition many_files : list fs.Stats := file <$> seq 0 1001.

(** A metadata cache of a thousand and one entries, entry [i] stored at
    time [i]. *)
Definition aged_entry (i : nat) : string * cached_stat :=
  (statKey (file i),
   CachedStat (stat_tag (file i)) ("W/" +:+ stat_tag (file i)) (Z.of_nat i)).
Definition aged_entries : gmap string cached_stat :=
  list_to_map (aged_entry <$> seq 0 1001).

(** Two strings of five UTF-8 bytes that start with the same letter and
    hold an accented one. *)
Definition cafe : jsstring := [0x63; 0x61; 0x66; 0xE9].
Definition cure : jsstring := [0x63; 0x75; 0x72; 0xE9].

(** * Properties *)

Section Content.

Variable h : heap.

Lemma strict_equal_spec a b : strict_equal a b = true ↔ a = b.
Proof. unfold strict_equal. apply bool_decide_eq_true. Qed.

Lemma empty_payload_bytes p : payload_length h p = 0%nat → payload_bytes h p = [].
Proof.
  destruct p as [s|r]; simpl; intros Hlen.
  - apply length_zero_iff_nil in Hlen. by subst s.
  - by apply length_zero_iff_nil in Hlen.
Qed.

Lemma byte_len_bytes p : byte_len h p = N.of_nat (length (payload_bytes h p)).
Proof. by destruct p. Qed.

(** The tag computed for no bytes at all is the constant of the module. *)
Lemma compute_tag_empty p : payload_length h p = 0%nat → compute_tag h p = EMPTY_TAG.
Proof.
  intros Hlen. unfold compute_tag.
  rewrite byte_len_bytes, (empty_payload_bytes _ Hlen). by vm_compute.
Qed.

Lemma entitytag_empty p wk c :
  payload_length h p = 0%nat →
  entitytag h p wk c = (render wk EMPTY_TAG, c).
Proof.
  intros Hlen. unfold entitytag. rewrite Hlen. simpl. by destruct wk.
Qed.

Lemma entitytag_hit p wk c e :
  payload_length h p ≠ 0%nat →
  hashCache c !! cacheKey h p = Some e →
  entity e = p →
  entitytag h p wk c = (render wk (tag e), c).
Proof.
  intros Hlen Hget Heq. unfold entitytag.
  apply Nat.eqb_neq in Hlen. rewrite Hlen, Hget.
  apply strict_equal_spec in Heq. by rewrite Heq.
Qed.

Lemma entitytag_miss p wk c :
  payload_length h p ≠ 0%nat →
  (∀ e, hashCache c !! cacheKey h p = Some e → entity e ≠ p) →
  entitytag h p wk c =
    (render wk (compute_tag h p),
     store (cacheKey h p) (CachedHash p (compute_tag h p)) c).
Proof.
  intros Hlen Hmiss. unfold entitytag.
  apply Nat.eqb_neq in Hlen. rewrite Hlen.
  destruct (hashCache c !! cacheKey h p) as [e|] eqn:Hget; [|done].
  destruct (strict_equal (entity e) p) eqn:Heq; [|done].
  apply strict_equal_spec in Heq. by destruct (Hmiss e).
Qed.

(** The three ways through [entitytag]. *)
Lemma entitytag_cases p wk c :
  (payload_length h p = 0%nat ∧ entitytag h p wk c = (render wk EMPTY_TAG, c))
  ∨ (payload_length h p ≠ 0%nat
     ∧ ∃ e, hashCache c !! cacheKey h p = Some e ∧ entity e = p
            ∧ entitytag h p wk c = (render wk (tag e), c))
  ∨ (payload_length h p ≠ 0%nat
     ∧ (∀ e, hashCache c !! cacheKey h p = Some e → entity e ≠ p)
     ∧ entitytag h p wk c =
         (render wk (compute_tag h p),
          store (cacheKey h p) (CachedHash p (compute_tag h p)) c)).
Proof.
  destruct (decide (payload_length h p = 0%nat)) as [Hlen|Hlen].
  { left. eauto using entitytag_empty. }
  right.
  destruct (hashCache c !! cacheKey h p) as [e|] eqn:Hget.
  - destruct (decide (entity e = p)) as [Heq|Hne].
    + left. split; [done|]. exists e. eauto using entitytag_hit.
    + right. split; [done|].
      assert (∀ e', hashCache c !! cacheKey h p = Some e' → entity e' ≠ p) as Hmiss
        by (intros e' He'; rewrite Hget in He'; by simplify_eq).
      split; [by intros e' [= <-]|]. by apply entitytag_miss.
  - right. split; [done|]. split; [done|].
    apply entitytag_miss; [done|]. by rewrite Hget.
Qed.

Lemma store_lookup key e c : hashCache (store key e c) !! key = Some e.
Proof.
  unfold store.
  destruct (HASH_CACHE_SIZE <=? size (hashCache c))%nat;
    [destruct (hashCacheKeys c)|]; simpl; apply lookup_insert_eq.
Qed.

(** Whatever else the map holds after [store] it held before. *)
Lemma store_lookup_ne key e c key' e' :
  key' ≠ key →
  hashCache (store key e c) !! key' = Some e' →
  hashCache c !! key' = Some e'.
Proof.
  intros Hne. unfold store.
  destruct (HASH_CACHE_SIZE <=? size (hashCache c))%nat;
    [destruct (hashCacheKeys c) as [|oldest rest]|]; simpl;
    rewrite lookup_insert_ne by done; try done.
  intros Hget. apply lookup_delete_Some in Hget. tauto.
Qed.

Lemma store_statCache key e c : statCache (store key e c) = statCache c.
Proof.
  unfold store.
  by destruct (HASH_CACHE_SIZE <=? size (hashCache c))%nat;
    [destruct (hashCacheKeys c)|].
Qed.

Lemma store_hash_ok key p c :
  hash_ok h c → hash_ok h (store key (CachedHash p (compute_tag h p)) c).
Proof.
  intros Hok key' e' Hget.
  destruct (decide (key' = key)) as [->|Hne].
  - rewrite store_lookup in Hget. by simplify_eq.
  - eapply Hok, store_lookup_ne; eauto.
Qed.

Lemma entitytag_hash_ok p wk c : hash_ok h c → hash_ok h (entitytag h p wk c).2.
Proof.
  intros Hok.
  destruct (entitytag_cases p wk c) as [[_ ->]|[(_ & e & _ & _ & ->)|(_ & _ & ->)]];
    simpl; auto using store_hash_ok.
Qed.

(** With coherent caches the answer is the tag of the payload, on each of
    the three ways. *)
Lemma entitytag_result p wk c :
  hash_ok h c → (entitytag h p wk c).1 = render wk (compute_tag h p).
Proof.
  intros Hok.
  destruct (entitytag_cases p wk c) as [[Hlen ->]|[(_ & e & Hget & Heq & ->)|(_ & _ & ->)]];
    simpl.
  - by rewrite compute_tag_empty.
  - by rewrite (Hok _ _ Hget), Heq.
  - done.
Qed.

End Content.

Section Metadata.

Lemma isstats_fields v : isstats v = true ↔ is_Some (stat_fields v).
Proof.
  destruct v as [| | | | | |st|[[[]|] [[]|] [[]|] [[]|]]]; simpl;
    split; intros H; try done; try (by eexists); by destruct H.
Qed.

Lemma fold_delete_lookup (keys : list string) (m : gmap string cached_stat) key :
  fold_left (λ m' k, delete k m') keys m !! key
  = if decide (key ∈ keys) then None else m !! key.
Proof.
  revert m. induction keys as [|k keys IH]; intros m; simpl.
  - destruct (decide (key ∈ [])) as [Hin|_]; [inversion Hin|done].
  - rewrite IH.
    destruct (decide (key ∈ keys)) as [Hin|Hnin];
      destruct (decide (key ∈ k :: keys)) as [Hin'|Hnin']; try done.
    + destruct Hnin'. by right.
    + inversion Hin'; subst; [apply lookup_delete_eq|done].
    + apply lookup_delete_ne. intros ->. destruct Hnin'. by left.
Qed.

(** The sweep removes nothing that is younger than the time to live. *)
Lemma sweep_keeps now (m : gmap string cached_stat) key e :
  m !! key = Some e →
  (now - timestamp e < STAT_CACHE_TTL)%Z →
  sweep now m !! key = Some e.
Proof.
  intros Hget Hyoung. unfold sweep.
  destruct (HASH_CACHE_SIZE <? size m)%nat; [|done].
  rewrite fold_delete_lookup, decide_False; [done|].
  intros Hin. apply list_elem_of_fmap in Hin as ([k e'] & -> & Hin).
  apply list_elem_of_filter in Hin as [Hold Hin]. simpl in *.
  apply elem_of_map_to_list in Hin. rewrite Hget in Hin. simplify_eq. lia.
Qed.

(** And what it leaves was there before. *)
Lemma sweep_lookup_Some now (m : gmap string cached_stat) key e :
  sweep now m !! key = Some e → m !! key = Some e.
Proof.
  unfold sweep. destruct (HASH_CACHE_SIZE <? size m)%nat; [|done].
  rewrite fold_delete_lookup. by destruct (decide _).
Qed.

Lemma stattag_hit now stat wk c e :
  statCache c !! statKey stat = Some e →
  (now - timestamp e < STAT_CACHE_TTL)%Z →
  stattag now stat wk c = (if wk then weakTag e else strongTag e, c).
Proof.
  intros Hget Hyoung. unfold stattag. rewrite Hget.
  apply Z.ltb_lt in Hyoung. by rewrite Hyoung.
Qed.

Lemma stattag_miss now stat wk c :
  (∀ e, statCache c !! statKey stat = Some e → (STAT_CACHE_TTL ≤ now - timestamp e)%Z) →
  stattag now stat wk c =
    (render wk (stat_tag stat),
     Caches (hashCache c) (hashCacheKeys c)
       (sweep now (<[statKey stat := CachedStat (stat_tag stat) ("W/" +:+ stat_tag stat) now]>
                     (statCache c)))).
Proof.
  intros Hold. unfold stattag.
  destruct (statCache c !! statKey stat) as [e|] eqn:Hget; [|by destruct wk].
  specialize (Hold e eq_refl). apply Z.ltb_ge in Hold. rewrite Hold. by destruct wk.
Qed.

Lemma stattag_hashCache now stat wk c :
  hashCache (stattag now stat wk c).2 = hashCache c
  ∧ hashCacheKeys (stattag now stat wk c).2 = hashCacheKeys c.
Proof.
  unfold stattag.
  destruct (statCache c !! statKey stat) as [e|]; [|done].
  by destruct (now - timestamp e <? STAT_CACHE_TTL)%Z.
Qed.

End Metadata.

Section Dispatch.

Variable h : heap.

Lemma etag_payload now p opts c :
  etag h now (value_of p) opts c =
    (Return (entitytag h p (weak_of opts false) c).1,
     (entitytag h p (weak_of opts false) c).2).
Proof.
  unfold etag, weak_of.
  destruct p; simpl; by destruct (entitytag h _ _ c).
Qed.

Lemma etag_stats now v stat opts c :
  stat_fields v = Some stat →
  etag h now v opts c =
    (Return (stattag now stat (weak_of opts true) c).1,
     (stattag now stat (weak_of opts true) c).2).
Proof.
  intros Hf. assert (isstats v = true) as Hs by (apply isstats_fields; by eexists).
  unfold etag, weak_of. rewrite Hs, Hf.
  destruct v; simpl; try done; by destruct (stattag now stat _ c).
Qed.

(** A call that raises leaves both caches as they were. *)
Lemma etag_throw now v opts c e :
  (etag h now v opts c).1 = Throw e → (etag h now v opts c).2 = c.
Proof.
  unfold etag.
  destruct (is_nullish v); [done|].
  destruct (negb (isstats v) && negb (is_string v) && negb (isBuffer v)); [done|].
  destruct (isstats v).
  - destruct (stat_fields v); [|done]. by destruct (stattag _ _ _ _).
  - destruct (as_payload v); [|done]. by destruct (entitytag _ _ _ _).
Qed.

Lemma etag_hash_ok now v opts c : hash_ok h c → hash_ok h (etag h now v opts c).2.
Proof.
  intros Hok. unfold etag.
  destruct (is_nullish v); [done|].
  destruct (negb (isstats v) && negb (is_string v) && negb (isBuffer v)); [done|].
  destruct (isstats v).
  - destruct (stat_fields v) as [stat|]; [|done].
    pose proof (stattag_hashCache now stat
      match opts with Some {| weak := Some b |} => b | _ => true end c) as [Hm _].
    destruct (stattag _ _ _ _) as [t c']. simpl in *.
    intros key e. rewrite Hm. apply Hok.
  - destruct (as_payload v) as [p|]; [|done].
    pose proof (entitytag_hash_ok h p
      match opts with Some {| weak := Some b |} => b | _ => false end c Hok) as Hok'.
    by destruct (entitytag _ _ _ _).
Qed.

Lemma initial_hash_ok : hash_ok h initial.
Proof. intros key e Hget. simpl in Hget. by rewrite lookup_empty in Hget. Qed.

Lemma run_snoc c ks k : run h c (ks ++ [k]) = step h (run h c ks) k.
Proof. unfold run. by rewrite fold_left_app. Qed.

Lemma run_hash_ok c ks : hash_ok h c → hash_ok h (run h c ks).
Proof.
  revert c. induction ks as [|k ks IH]; intros c Hok; [done|].
  simpl. apply IH. by apply etag_hash_ok.
Qed.

End Dispatch.

(** * Main results *)

Section Results.

Variable h : heap.


(** From the caches any sequence of calls leaves behind, a payload gets the
    tag of its bytes. *)
Lemma etag_payload_result ks now p opts :
  (etag h now (value_of p) opts (run h initial ks)).1
  = Return (render (weak_of opts false) (compute_tag h p)).
Proof.
  rewrite etag_payload. simpl. f_equal.
  apply entitytag_result, run_hash_ok, initial_hash_ok.
Qed.




(** C9. Empty input: for an empty string or Buffer [etag] returns the
    precomputed constant, strong or weak, and touches no cache; the
    constant is the tag that the digest path computes for no bytes. *)
Theorem empty_fast_path now p opts c :
  payload_length h p = 0%nat →
  etag h now (value_of p) opts c
  = (Return (if weak_of opts false
             then "W/" +:+ quote +:+ "0-2jmj7l5rSw0yVb/vlWAYkK/YBwk" +:+ quote
             else quote +:+ "0-2jmj7l5rSw0yVb/vlWAYkK/YBwk" +:+ quote), c)
  ∧ compute_tag h p = quote +:+ "0-2jmj7l5rSw0yVb/vlWAYkK/YBwk" +:+ quote
  ∧ render true (compute_tag h p)
    = "W/" +:+ quote +:+ "0-2jmj7l5rSw0yVb/vlWAYkK/YBwk" +:+ quote.
Proof.
  intros Hlen. rewrite etag_payload, entitytag_empty, compute_tag_empty by done.
  split; [|done]. simpl. by destruct (weak_of opts false).
Qed.




(** C5. Time to live of the metadata cache: when an entry is cached under
    the key of a descriptor (inode, dash, modification time), a call made
    less than 5000 ms after the entry was stored returns the cached weak or
    strong tag and changes nothing; a call made 5000 ms after or later
    computes the tags afresh and stores them under the key with the time of
    the call. *)
Theorem stat_cache_ttl now v stat opts c e :
  stat_fields v = Some stat →
  statCache c !! (dec_Z (fs.ino stat) +:+ "-" +:+ dec_Z (fs.mtime stat)) = Some e →
  ((now - timestamp e < 5000)%Z →
   etag h now v opts c
   = (Return (if weak_of opts true then weakTag e else strongTag e), c))
  ∧ ((5000 ≤ now - timestamp e)%Z →
     (etag h now v opts c).1
     = Return (render (weak_of opts true) (stat_tag stat))
     ∧ statCache (etag h now v opts c).2
         !! (dec_Z (fs.ino stat) +:+ "-" +:+ dec_Z (fs.mtime stat))
       = Some (CachedStat (stat_tag stat) ("W/" +:+ stat_tag stat) now)
     ∧ hashCache (etag h now v opts c).2 = hashCache c).
Proof.
  intros Hf Hget. fold (statKey stat) in *. rewrite (etag_stats h now v stat) by done.
  split.
  - intros Hyoung. by rewrite (stattag_hit now stat _ c e).
  - intros Hold. rewrite stattag_miss.
    + simpl. repeat split. apply sweep_keeps.
      * apply lookup_insert_eq.
      * simpl. unfold STAT_CACHE_TTL. lia.
    + intros e'. rewrite Hget. intros [= <-]. done.
Qed.

(** C7, as amended. Metadata tag format: when the metadata cache holds no
    entry younger than the time to live under the key of the descriptor, the
    strong tag is the quoted size and modification time in hexadecimal with
    a dash between, and the weak tag is the same behind [W/]; so on the
    empty cache the descriptor with size 0, time 0 and inode 1 gets the weak
    tag [W/"0-0"].  When a younger entry is held, its tags are returned. *)
Theorem stat_tag_format now v stat opts c :
  stat_fields v = Some stat →
  ((∀ e, statCache c !! statKey stat = Some e → (STAT_CACHE_TTL ≤ now - timestamp e)%Z) →
   (etag h now v opts c).1
   = Return (if weak_of opts true
             then "W/" +:+ metadata_tag_spec (fs.size stat) (fs.mtime stat)
             else metadata_tag_spec (fs.size stat) (fs.mtime stat)))
  ∧ (etag h now (VStats a_file) None initial).1 = Return ("W/" +:+ quote +:+ "0-0" +:+ quote)
  ∧ (∀ e, statCache c !! statKey stat = Some e →
          (now - timestamp e < STAT_CACHE_TTL)%Z →
          (etag h now v opts c).1
          = Return (if weak_of opts true then weakTag e else strongTag e)).
Proof.
  intros Hf. split; [|split].
  - intros Hold. rewrite (etag_stats h now v stat), stattag_miss by done. done.
  - done.
  - intros e Hget Hyoung.
    by rewrite (etag_stats h now v stat), (stattag_hit now stat _ c e).
Qed.

Lemma entry_keys ps : (entry_of h <$> ps).*1 = cacheKey h <$> ps.
Proof. rewrite <- list_fmap_compose. by apply list_fmap_ext. Qed.

Lemma step_payload c k p :
  c_entity k = value_of p →
  step h c k = (entitytag h p (weak_of (c_options k) false) c).2.
Proof. intros Hk. unfold step. by rewrite Hk, etag_payload. Qed.

(** As long as the cache is not full, payloads with keys of their own are
    stored one after the other and nothing is evicted. *)
Lemma run_distinct ps : ∀ ks,
  c_entity <$> ks = value_of <$> ps →
  NoDup (cacheKey h <$> ps) →
  Forall (λ p, payload_length h p ≠ 0%nat) ps →
  (length ps ≤ HASH_CACHE_SIZE)%nat →
  hashCache (run h initial ks) = list_to_map (entry_of h <$> ps)
  ∧ hashCacheKeys (run h initial ks) = cacheKey h <$> ps.
Proof.
  induction ps as [|p ps IH] using rev_ind; intros ks Hks Hdup Hlen Hsize.
  { apply fmap_nil_inv in Hks as ->. done. }
  rewrite fmap_app in Hks. apply fmap_app_inv in Hks as (ks' & kl & Hks' & Hkl & ->).
  symmetry in Hkl. apply fmap_cons_inv in Hkl as (k & kl' & Hk & Hnil & ->).
  symmetry in Hnil. apply fmap_nil_inv in Hnil as ->.
  rewrite fmap_app in Hdup. apply NoDup_app in Hdup as (Hdup & Hfresh & _).
  apply Forall_app in Hlen as [Hlen Hp]. apply Forall_inv in Hp. simpl in Hp.
  rewrite length_app in Hsize. simpl in Hsize.
  destruct (IH ks') as [Hm Hkeys]; [done..|lia|].
  assert (cacheKey h p ∉ cacheKey h <$> ps) as Hnew.
  { intros Hin. eapply Hfresh; [done|]. simpl. left. }
  assert (hashCache (run h initial ks') !! cacheKey h p = None) as Hnone.
  { rewrite Hm. apply not_elem_of_list_to_map_1. by rewrite entry_keys. }
  rewrite run_snoc, (step_payload _ k p) by done.
  rewrite entitytag_miss by (done || (intros e; by rewrite Hnone)).
  simpl. unfold store.
  assert (size (hashCache (run h initial ks')) = length ps) as Hsz.
  { rewrite Hm, map_size_list_to_map, length_fmap; [done|]. by rewrite entry_keys. }
  rewrite Hsz. replace (HASH_CACHE_SIZE <=? length ps)%nat with false
    by (symmetry; apply Nat.leb_gt; lia).
  simpl. split.
  - rewrite Hm, fmap_app. simpl. symmetry. apply list_to_map_snoc. by rewrite entry_keys.
  - by rewrite Hkeys, fmap_app.
Qed.

(** C4. First in, first out: from the empty cache, calls on
    [HASH_CACHE_SIZE + 1] non-empty payloads with keys of their own leave
    the first payload without an entry and each of the others with its
    entry, a full cache. *)
Theorem fifo_eviction p0 rest ks :
  c_entity <$> ks = value_of <$> p0 :: rest →
  length rest = HASH_CACHE_SIZE →
  NoDup (cacheKey h <$> p0 :: rest) →
  Forall (λ p, payload_length h p ≠ 0%nat) (p0 :: rest) →
  hashCache (run h initial ks) !! cacheKey h p0 = None
  ∧ (∀ p, p ∈ rest →
          hashCache (run h initial ks) !! cacheKey h p
          = Some (CachedHash p (compute_tag h p)))
  ∧ size (hashCache (run h initial ks)) = HASH_CACHE_SIZE.
Proof.
  intros Hks Hrest Hdup Hlen.
  destruct (decide (rest = [])) as [->|Hne]; [done|].
  apply exists_last in Hne as (mid & pl & ->).
  rewrite length_app in Hrest. simpl in Hrest.
  change (p0 :: mid ++ [pl]) with ((p0 :: mid) ++ [pl]) in *.
  rewrite fmap_app in Hks. apply fmap_app_inv in Hks as (ks' & kl & Hks' & Hkl & ->).
  symmetry in Hkl. apply fmap_cons_inv in Hkl as (k & kl' & Hk & Hnil & ->).
  symmetry in Hnil. apply fmap_nil_inv in Hnil as ->.
  rewrite fmap_app in Hdup. apply NoDup_app in Hdup as (Hdup & Hfresh & _).
  apply Forall_app in Hlen as [Hlen Hp]. apply Forall_inv in Hp. simpl in Hp.
  destruct (run_distinct (p0 :: mid) ks') as [Hm Hkeys]; [done..|simpl; lia|].
  assert (cacheKey h pl ∉ cacheKey h <$> p0 :: mid) as Hnew.
  { intros Hin. eapply Hfresh; [done|]. simpl. left. }
  assert (hashCache (run h initial ks') !! cacheKey h pl = None) as Hnone.
  { rewrite Hm. apply not_elem_of_list_to_map_1. by rewrite entry_keys. }
  assert (NoDup (entry_of h <$> p0 :: mid).*1) as Hdup' by (by rewrite entry_keys).
  assert (size (hashCache (run h initial ks')) = HASH_CACHE_SIZE) as Hsz.
  { rewrite Hm, map_size_list_to_map, length_fmap by done. simpl. lia. }
  rewrite run_snoc, (step_payload _ k pl) by done.
  rewrite entitytag_miss by (done || (intros e; by rewrite Hnone)).
  simpl. unfold store. rewrite Hsz, Nat.leb_refl, Hkeys. simpl.
  apply not_elem_of_cons in Hnew as [Hl0 Hlmid].
  apply NoDup_cons in Hdup as [H0mid Hdupmid].
  split; [|split].
  - rewrite lookup_insert_ne by done. apply lookup_delete_eq.
  - intros p [Hin| ->%list_elem_of_singleton]%elem_of_app.
    + assert (cacheKey h p ∈ cacheKey h <$> mid) as Hkin by (by apply list_elem_of_fmap_2).
      assert (cacheKey h pl ≠ cacheKey h p) by (intros Heq; apply Hlmid; by rewrite Heq).
      assert (cacheKey h p0 ≠ cacheKey h p) by (intros Heq; apply H0mid; by rewrite Heq).
      rewrite lookup_insert_ne, lookup_delete_ne, Hm by done.
      apply elem_of_list_to_map_1; [done|].
      apply (list_elem_of_fmap_2 (entry_of h)). by right.
    + apply lookup_insert_eq.
  - rewrite map_size_insert_None, map_size_delete_Some.
    + rewrite Hsz. unfold HASH_CACHE_SIZE. lia.
    + rewrite Hm. eexists. apply elem_of_list_to_map_1; [done|].
      rewrite fmap_cons. left.
    + rewrite lookup_delete_ne by done. done.
Qed.

End Results.

(** * The results on sample inputs *)

(** C2. The content cache outgrows [HASH_CACHE_SIZE]: two strings that
    share a key put that key twice in [hashCacheKeys]; once the cache is
    full the second copy is shifted out for a key the map no longer holds,
    nothing is deleted, and the map reaches 1001 entries. *)
Theorem hash_cache_exceeds_capacity :
  length overflow_calls = 1003%nat
  ∧ size (hashCache (run no_heap initial overflow_calls)) = S HASH_CACHE_SIZE.
Proof. by vm_compute. Qed.


Lemma increasing_lt a l : increasing (a :: l) = true → Forall (N.lt a) l.
Proof.
  revert a. induction l as [|b l IH]; intros a Hinc; [constructor|].
  simpl in Hinc. apply andb_true_iff in Hinc as [Hab Hrest].
  apply N.ltb_lt in Hab. constructor; [done|].
  eapply Forall_impl; [by apply IH|]. simpl. intros c Hbc. lia.
Qed.

Lemma increasing_NoDup l : increasing l = true → NoDup l.
Proof.
  induction l as [|a l IH]; intros Hinc; [constructor|].
  apply NoDup_cons. split.
  - intros Hin. apply increasing_lt in Hinc.
    rewrite Forall_forall in Hinc. specialize (Hinc a Hin). lia.
  - apply IH. destruct l as [|b l]; [done|].
    simpl in Hinc. by apply andb_true_iff in Hinc as [_ Hrest].
Qed.

Lemma NoDup_by_code (keys : list string) :
  increasing (key_code <$> keys) = true → NoDup keys.
Proof. intros Hinc. eapply NoDup_fmap_1. by apply increasing_NoDup. Qed.

Lemma filler_keys_NoDup : NoDup (cacheKey no_heap <$> filler 0 :: fillers).
Proof. apply NoDup_by_code. by vm_compute. Qed.

Lemma filler_nonempty (ps : list nat) : Forall (λ p, payload_length no_heap p ≠ 0%nat) (filler <$> ps).
Proof. apply Forall_fmap, Forall_forall. by intros i _. Qed.

Lemma entity_call_entities (ps : list payload) : c_entity <$> (entity_call <$> ps) = value_of <$> ps.
Proof. rewrite <- list_fmap_compose. by apply list_fmap_ext. Qed.

Lemma fifo_eviction_witness :
  hashCache (run no_heap initial (entity_call <$> filler 0 :: fillers))
    !! cacheKey no_heap (filler 0) = None
  ∧ size (hashCache (run no_heap initial (entity_call <$> filler 0 :: fillers)))
    = HASH_CACHE_SIZE.
Proof.
  destruct (fifo_eviction no_heap (filler 0) fillers (entity_call <$> filler 0 :: fillers))
    as (Hfirst & _ & Hsize).
  - apply entity_call_entities.
  - unfold fillers. by rewrite length_fmap, length_seq.
  - apply filler_keys_NoDup.
  - apply (filler_nonempty (0%nat :: seq 1 1000)).
  - split; [exact Hfirst|exact Hsize].
Defined.

Lemma stat_cache_ttl_witness :
  etag no_heap 4999 (VStats a_file) None a_file_cached
  = (Return ("W/" +:+ quote +:+ "0-0" +:+ quote), a_file_cached)
  ∧ statCache (etag no_heap 5000 (VStats a_file) strong a_file_cached).2 !! "1-0"
    = Some (CachedStat (stat_tag a_file) ("W/" +:+ stat_tag a_file) 5000).
Proof.
  assert (statCache a_file_cached !! (dec_Z (fs.ino a_file) +:+ "-" +:+ dec_Z (fs.mtime a_file))
          = Some (CachedStat (stat_tag a_file) ("W/" +:+ stat_tag a_file) 0)) as Hget
    by (vm_compute; reflexivity).
  split.
  - destruct (stat_cache_ttl no_heap 4999 (VStats a_file) a_file None a_file_cached _
                eq_refl Hget) as [Hyoung _].
    apply Hyoung. simpl. lia.
  - destruct (stat_cache_ttl no_heap 5000 (VStats a_file) a_file strong a_file_cached _
                eq_refl Hget) as [_ Hold].
    destruct Hold as (_ & Hentry & _); [simpl; lia|exact Hentry].
Defined.


(** C7, as stated, fails: a descriptor of size 0 that shares inode and
    modification time with a descriptor of size 5 tagged a millisecond
    before gets the tag of the latter. *)
Lemma stat_tag_stale_size :
  (etag no_heap 1 (VStats a_file) None
     (run no_heap initial [Call (VStats a_longer_file) None 0])).1
  = Return ("W/" +:+ quote +:+ "5-0" +:+ quote)
  ∧ (etag no_heap 1 (VStats a_file) None
       (run no_heap initial [Call (VStats a_longer_file) None 0])).1
    ≠ Return ("W/" +:+ metadata_tag_spec (fs.size a_file) (fs.mtime a_file)).
Proof. split; [by vm_compute|]. vm_compute. discriminate. Qed.

Lemma stat_tag_format_witness :
  (etag no_heap 6000 (VStats a_longer_file) strong a_file_cached).1
  = Return (metadata_tag_spec 5 0).
Proof.
  refine (proj1 (stat_tag_format no_heap 6000 (VStats a_longer_file) a_longer_file strong
                   a_file_cached _) _).
  - reflexivity.
  - intros e He. vm_compute in He. injection He as <-. vm_compute. discriminate.
Defined.


Lemma empty_fast_path_witness :
  etag two_buffers 0 (value_of (PBuffer 2%nat)) weakly hello_cached
  = (Return ("W/" +:+ quote +:+ "0-2jmj7l5rSw0yVb/vlWAYkK/YBwk" +:+ quote), hello_cached).
Proof.
  exact (proj1 (empty_fast_path two_buffers 0 (PBuffer 2%nat) weakly hello_cached eq_refl)).
Defined.


(** The statements above keep the heap fixed from call to call.  When the
    caller rewrites a Buffer that the cache refers to, the identity check
    still passes and the tag of the former bytes is served. *)
Lemma rewritten_buffer_served_stale :
  (etag rewritten 1 (VBuffer 0%nat) None
     (run two_buffers initial [entity_call (PBuffer 0%nat)])).1
  = Return (compute_tag two_buffers (PBuffer 0%nat))
  ∧ compute_tag rewritten (PBuffer 0%nat) ≠ compute_tag two_buffers (PBuffer 0%nat).
Proof. split; [by vm_compute|]. vm_compute. discriminate. Qed.

(** * The content cache *)

Section ContentCache.

Variable h : heap.

Lemma as_payload_value_of v p : as_payload v = Some p → v = value_of p.
Proof. destruct v; intros [= <-]; done. Qed.

(** What a call does to the content cache: nothing, or one [store] of the
    entry of its payload, which it did not find. *)
Lemma etag_content_effect now v opts c :
  (hashCache (etag h now v opts c).2 = hashCache c
   ∧ hashCacheKeys (etag h now v opts c).2 = hashCacheKeys c)
  ∨ (∃ p, as_payload v = Some p
          ∧ payload_length h p ≠ 0%nat
          ∧ (∀ e, hashCache c !! cacheKey h p = Some e → entity e ≠ p)
          ∧ (etag h now v opts c).2 = store (cacheKey h p) (entry_of h p).2 c).
Proof.
  destruct (stat_fields v) as [stat|] eqn:Hf.
  { left. rewrite (etag_stats h now v stat) by done. apply stattag_hashCache. }
  destruct (as_payload v) as [p|] eqn:Hp.
  - apply as_payload_value_of in Hp as Hv. subst v. rewrite etag_payload. simpl.
    destruct (entitytag_cases h p (weak_of opts false) c)
      as [[_ ->]|[(_ & e & _ & _ & ->)|(Hlen & Hmiss & ->)]]; simpl; auto.
    right. exists p. done.
  - left. assert (isstats v = false) as Hs.
    { destruct (isstats v) eqn:Hs; [|done].
      apply isstats_fields in Hs as [stat Hs]. congruence. }
    unfold etag. rewrite Hs, Hp.
    destruct (is_nullish v); [done|].
    by destruct (negb false && negb (is_string v) && negb (isBuffer v)).
Qed.

Lemma run_invariant (P : caches → Prop) :
  P initial → (∀ c k, P c → P (step h c k)) → ∀ ks, P (run h initial ks).
Proof.
  intros Hinit Hstep ks. induction ks as [|k ks IH] using rev_ind; [done|].
  rewrite run_snoc. by apply Hstep.
Qed.

Lemma store_keys_listed key e c : keys_listed c → keys_listed (store key e c).
Proof.
  intros Hc key' Hsome. unfold store in *.
  destruct (decide (key' = key)) as [->|Hne].
  { destruct (HASH_CACHE_SIZE <=? size (hashCache c))%nat;
      [destruct (hashCacheKeys c)|]; cbn [hashCacheKeys];
      apply elem_of_app; right; left. }
  destruct (HASH_CACHE_SIZE <=? size (hashCache c))%nat;
    [destruct (hashCacheKeys c) as [|oldest rest] eqn:Hkeys|];
    cbn [hashCache hashCacheKeys] in *;
    rewrite lookup_insert_ne in Hsome by done; apply elem_of_app; left.
  - rewrite <- Hkeys. by apply Hc.
  - destruct (decide (key' = oldest)) as [->|Hold].
    + rewrite lookup_delete_eq in Hsome. by destruct Hsome.
    + rewrite lookup_delete_ne in Hsome by done.
      specialize (Hc key' Hsome). rewrite Hkeys in Hc.
      by apply elem_of_cons in Hc as [?|?].
  - by apply Hc.
Qed.

Lemma keys_listed_size c : keys_listed c → (size (hashCache c) ≤ length (hashCacheKeys c))%nat.
Proof.
  intros Hc. rewrite <- length_map_to_list, <- (length_fmap fst).
  apply submseteq_length, NoDup_submseteq; [apply NoDup_fst_map_to_list|].
  intros key ([key' e] & -> & Hin)%list_elem_of_fmap.
  apply elem_of_map_to_list in Hin. apply Hc. by eexists.
Qed.

Lemma step_keys_listed c k : keys_listed c → keys_listed (step h c k).
Proof.
  intros Hc. unfold step.
  destruct (etag_content_effect (c_now k) (c_entity k) (c_options k) c)
    as [[Hm Hk]|(p & _ & _ & _ & ->)].
  - intros key. rewrite Hm, Hk. apply Hc.
  - by apply store_keys_listed.
Qed.

(** X1. After any sequence of calls every key of the content cache is in
    the key list, so the map has at most as many entries as the list has
    keys, and a full map always finds a key to shift out. *)
Theorem key_list_covers_map ks :
  keys_listed (run h initial ks)
  ∧ (size (hashCache (run h initial ks)) ≤ length (hashCacheKeys (run h initial ks)))%nat
  ∧ ((HASH_CACHE_SIZE ≤ size (hashCache (run h initial ks)))%nat →
     ∃ oldestKey rest, hashCacheKeys (run h initial ks) = oldestKey :: rest).
Proof.
  assert (keys_listed (run h initial ks)) as Hc.
  { apply run_invariant; [|apply step_keys_listed].
    intros key [e He]. simpl in He. by rewrite lookup_empty in He. }
  split; [done|]. split; [by apply keys_listed_size|].
  intros Hfull. apply keys_listed_size in Hc.
  destruct (hashCacheKeys (run h initial ks)) as [|oldest rest]; [|by eauto].
  simpl in Hc. unfold HASH_CACHE_SIZE in Hfull. lia.
Qed.



Lemma store_within_capacity key e c :
  within_capacity c → hashCache c !! key = None → within_capacity (store key e c).
Proof.
  intros (Hdup & Hdom & Hsize) Hnone.
  assert (key ∉ hashCacheKeys c) as Hnew.
  { intros [e' He']%Hdom. congruence. }
  assert (size (hashCache c) = length (hashCacheKeys c)) as Hlen.
  { rewrite <- length_map_to_list, <- (length_fmap fst).
    apply Permutation_length, NoDup_Permutation;
      [apply NoDup_fst_map_to_list|done|].
    intros k. rewrite Hdom. split.
    - intros ([k' e'] & -> & Hin)%list_elem_of_fmap.
      apply elem_of_map_to_list in Hin. by eexists.
    - intros [e' He']. apply list_elem_of_fmap. exists (k, e').
      split; [done|]. by apply elem_of_map_to_list. }
  unfold store.
  destruct (HASH_CACHE_SIZE <=? size (hashCache c))%nat eqn:Hfull.
  - apply Nat.leb_le in Hfull.
    destruct (hashCacheKeys c) as [|oldest rest] eqn:Hkeys.
    { simpl in Hlen. unfold HASH_CACHE_SIZE in Hfull. lia. }
    apply NoDup_cons in Hdup as [Hold Hdup].
    apply not_elem_of_cons in Hnew as [Hne Hnew].
    assert (is_Some (hashCache c !! oldest)) as Hin by (apply Hdom; left).
    unfold within_capacity. cbn [hashCache hashCacheKeys]. split; [|split].
    + apply NoDup_app. split; [done|]. split; [|apply NoDup_singleton].
      intros k Hk ->%list_elem_of_singleton. done.
    + intros k. rewrite elem_of_app, list_elem_of_singleton.
      destruct (decide (k = key)) as [->|Hk].
      * rewrite lookup_insert_eq. split; [by eexists|auto].
      * rewrite lookup_insert_ne by done.
        destruct (decide (k = oldest)) as [->|Hk'].
        -- rewrite lookup_delete_eq. split; [intros [?|?]; done|by intros [? ?]].
        -- rewrite lookup_delete_ne, <- Hdom by done.
           rewrite elem_of_cons. tauto.
    + rewrite map_size_insert_None, map_size_delete_Some by
        (done || by rewrite lookup_delete_ne).
      simpl in Hlen. lia.
  - apply Nat.leb_gt in Hfull.
    unfold within_capacity. cbn [hashCache hashCacheKeys]. split; [|split].
    + apply NoDup_app. split; [done|]. split; [|apply NoDup_singleton].
      intros k Hk ->%list_elem_of_singleton. done.
    + intros k. rewrite elem_of_app, list_elem_of_singleton.
      destruct (decide (k = key)) as [->|Hk].
      * rewrite lookup_insert_eq. split; [by eexists|auto].
      * rewrite lookup_insert_ne, <- Hdom by done. tauto.
    + rewrite map_size_insert_None by done. lia.
Qed.

(** X3. Where no call meets another payload under its key, the content
    cache keeps its bound: the key list holds each key of the map once and
    nothing else, and the map never has more than [HASH_CACHE_SIZE]
    entries.  This holds of the empty caches and every such call keeps
    it. *)
Theorem capacity_without_collisions :
  within_capacity initial
  ∧ (∀ c now v opts,
       within_capacity c → collision_free h c v →
       within_capacity (etag h now v opts c).2).
Proof.
  split.
  { split; [constructor|]. split.
    - intros key. simpl. rewrite lookup_empty. split; [by inversion 1|by intros [? ?]].
    - simpl. rewrite map_size_empty. lia. }
  intros c now v opts Hc Hfree.
  destruct (etag_content_effect now v opts c) as [[Hm Hk]|(p & Hp & _ & Hmiss & ->)].
  - unfold within_capacity. by rewrite Hm, Hk.
  - apply store_within_capacity; [done|].
    destruct (hashCache c !! cacheKey h p) as [e|] eqn:Hget; [|done].
    destruct (Hmiss e eq_refl). by eapply Hfree.
Qed.

End ContentCache.

Section ContentCalls.

Variable h : heap.

Lemma run_app c ks ks' : run h c (ks ++ ks') = run h (run h c ks) ks'.
Proof. unfold run. apply fold_left_app. Qed.

Lemma settled_call c p now opts :
  settled h c p →
  etag h now (value_of p) opts c
  = (Return (render (weak_of opts false) (settled_tag h c p)), c).
Proof.
  intros Hs. rewrite etag_payload. unfold settled_tag.
  destruct (decide (payload_length h p = 0%nat)) as [Hlen|Hlen].
  - by rewrite entitytag_empty.
  - destruct Hs as [?|(e & Hget & Heq)]; [done|].
    by rewrite (entitytag_hit h p _ c e), Hget.
Qed.

Lemma first_call_settles c p now opts :
  settled h (etag h now (value_of p) opts c).2 p.
Proof.
  rewrite etag_payload.
  destruct (entitytag_cases h p (weak_of opts false) c)
    as [[Hlen ->]|[(_ & e & Hget & Heq & ->)|(_ & _ & ->)]]; simpl.
  - by left.
  - right. eauto.
  - right. eexists. split; [apply store_lookup|done].
Qed.

Lemma first_call_tag c p now opts :
  (etag h now (value_of p) opts c).1
  = Return (render (weak_of opts false)
              (settled_tag h (etag h now (value_of p) opts c).2 p)).
Proof.
  rewrite etag_payload. cbn [fst snd]. f_equal. unfold settled_tag.
  destruct (entitytag_cases h p (weak_of opts false) c)
    as [[Hlen ->]|[(Hlen & e & Hget & Heq & ->)|(Hlen & _ & ->)]]; cbn [fst snd].
  - by rewrite decide_True.
  - by rewrite decide_False, Hget.
  - by rewrite decide_False, store_lookup.
Qed.

(** X4. Calls repeated on one payload: after the first call on a string or
    Buffer, any number of further calls on it leave both caches as the
    first call left them, and each returns the tag the first returned, with
    [W/] in front or not as its own option says. *)
Theorem repeated_calls_settle c p k ks :
  c_entity k = value_of p →
  Forall (λ k', c_entity k' = value_of p) ks →
  run h (step h c k) ks = step h c k
  ∧ ∃ t, (etag h (c_now k) (c_entity k) (c_options k) c).1
         = Return (render (weak_of (c_options k) false) t)
         ∧ Forall (λ k', (etag h (c_now k') (c_entity k') (c_options k') (step h c k)).1
                         = Return (render (weak_of (c_options k') false) t)) ks.
Proof.
  intros Hk Hks.
  assert (step h c k = (etag h (c_now k) (value_of p) (c_options k) c).2) as ->
    by (unfold step; by rewrite Hk).
  pose proof (first_call_settles c p (c_now k) (c_options k)) as Hs.
  pose proof (first_call_tag c p (c_now k) (c_options k)) as Hfirst.
  set (c1 := (etag h (c_now k) (value_of p) (c_options k) c).2) in *.
  split.
  - induction Hks as [|k' ks Hk' Hks IH]; [done|].
    change (run h (step h c1 k') ks = c1). unfold step.
    by rewrite Hk', settled_call.
  - exists (settled_tag h c1 p). split; [by rewrite Hk|].
    eapply Forall_impl; [exact Hks|]. intros k' Hk'. simpl in *.
    by rewrite Hk', settled_call.
Qed.

Lemma caches_frame_payload now p opts c :
  statCache (etag h now (value_of p) opts c).2 = statCache c.
Proof.
  rewrite etag_payload.
  destruct (entitytag_cases h p (weak_of opts false) c)
    as [[_ ->]|[(_ & e & _ & _ & ->)|(_ & _ & ->)]]; simpl; try done.
  apply store_statCache.
Qed.

(** X5. The two caches are independent: a call on a string or Buffer leaves
    the metadata cache as it was, and a call on a descriptor leaves the
    content cache and its key list as they were. *)
Theorem caches_are_independent now opts c :
  (∀ p, statCache (etag h now (value_of p) opts c).2 = statCache c)
  ∧ (∀ v stat, stat_fields v = Some stat →
               hashCache (etag h now v opts c).2 = hashCache c
               ∧ hashCacheKeys (etag h now v opts c).2 = hashCacheKeys c).
Proof.
  split.
  - intros p. apply caches_frame_payload.
  - intros v stat Hf. rewrite (etag_stats h now v stat) by done.
    apply stattag_hashCache.
Qed.

Lemma drop_succ {A} (l : list A) n x rest : drop n l = x :: rest → drop (S n) l = rest.
Proof.
  intros Hd. replace (S n) with (n + 1)%nat by lia.
  by rewrite <- drop_drop, Hd.
Qed.

(** X6. The content cache holds the most recent payloads: after calls on
    any number of non-empty payloads with keys of their own, starting from
    the empty cache, the key list is the keys of the last
    [HASH_CACHE_SIZE] of them in the order of the calls, and the map holds
    exactly their entries. *)
Theorem most_recent_window ps : ∀ ks,
  c_entity <$> ks = value_of <$> ps →
  NoDup (cacheKey h <$> ps) →
  Forall (λ p, payload_length h p ≠ 0%nat) ps →
  hashCacheKeys (run h initial ks)
  = cacheKey h <$> drop (length ps - HASH_CACHE_SIZE) ps
  ∧ hashCache (run h initial ks)
    = list_to_map (entry_of h <$> drop (length ps - HASH_CACHE_SIZE) ps).
Proof.
  induction ps as [|p ps IH] using rev_ind; intros ks Hks Hdup Hlen.
  { apply fmap_nil_inv in Hks as ->. done. }
  rewrite fmap_app in Hks. apply fmap_app_inv in Hks as (ks' & kl & Hks' & Hkl & ->).
  symmetry in Hkl. apply fmap_cons_inv in Hkl as (k & kl' & Hk & Hnil & ->).
  symmetry in Hnil. apply fmap_nil_inv in Hnil as ->.
  rewrite fmap_app in Hdup. apply NoDup_app in Hdup as (Hdup & Hfresh & _).
  apply Forall_app in Hlen as [Hlen Hp]. apply Forall_inv in Hp. simpl in Hp.
  destruct (IH ks') as [Hkeys Hm]; [done..|].
  assert (0 < HASH_CACHE_SIZE)%nat as Hpos by (unfold HASH_CACHE_SIZE; lia).
  remember (length ps - HASH_CACHE_SIZE)%nat as n eqn:Hn.
  remember (drop n ps) as w eqn:Hweq.
  assert (NoDup (cacheKey h <$> w)) as Hdupw.
  { apply (sublist_NoDup (cacheKey h <$> w) (cacheKey h <$> ps)); [done|].
    subst w. apply fmap_sublist, sublist_drop. }
  assert (cacheKey h p ∉ cacheKey h <$> w) as Hnew.
  { intros (q & Hq & Hin)%list_elem_of_fmap.
    apply (Hfresh (cacheKey h p)); [|left].
    rewrite Hq. apply list_elem_of_fmap_2. subst w. by eapply subseteq_drop. }
  assert (hashCache (run h initial ks') !! cacheKey h p = None) as Hnone.
  { rewrite Hm. apply not_elem_of_list_to_map_1. by rewrite entry_keys. }
  assert (size (hashCache (run h initial ks')) = length w) as Hsz.
  { rewrite Hm, map_size_list_to_map, length_fmap; [done|]. by rewrite entry_keys. }
  assert (length w = (length ps - n)%nat) as Hw by (subst w; apply length_drop).
  rewrite run_snoc, (step_payload h _ k p) by done.
  rewrite entitytag_miss by (done || (intros e; by rewrite Hnone)).
  cbn [snd]. unfold store. rewrite Hsz, length_app. cbn [length].
  destruct (HASH_CACHE_SIZE <=? length w)%nat eqn:Hfull.
  - apply Nat.leb_le in Hfull.
    replace (length ps + 1 - HASH_CACHE_SIZE)%nat with (S n) by lia.
    rewrite drop_app_le by lia.
    rewrite Hkeys. destruct w as [|w0 w1].
    { simpl in Hfull. lia. }
    rewrite (drop_succ ps n w0 w1) by done.
    cbn [hashCache hashCacheKeys fmap list_fmap].
    rewrite fmap_cons in Hdupw. rewrite fmap_cons in Hnew. rewrite fmap_cons in Hm.
    apply NoDup_cons in Hdupw as [Hw0 Hdupw1].
    apply not_elem_of_cons in Hnew as [Hne Hnew1].
    split; [by rewrite fmap_app|].
    rewrite Hm, fmap_app. cbn [fmap list_fmap].
    change (entry_of h w0) with (cacheKey h w0, (entry_of h w0).2).
    rewrite list_to_map_cons.
    rewrite delete_insert_eq, delete_id
      by (apply not_elem_of_list_to_map_1; by rewrite entry_keys).
    symmetry. apply list_to_map_snoc. by rewrite entry_keys.
  - apply Nat.leb_gt in Hfull.
    assert (n = 0%nat) as Hn0 by lia.
    replace (length ps + 1 - HASH_CACHE_SIZE)%nat with 0%nat by lia.
    rewrite drop_0. rewrite Hn0, drop_0 in Hweq. subst w.
    cbn [hashCache hashCacheKeys]. split; [by rewrite Hkeys, fmap_app|].
    rewrite Hm, fmap_app. symmetry. apply list_to_map_snoc. by rewrite entry_keys.
Qed.

(** X7. The key list is not bounded: two different non-empty payloads with
    the same key, tagged in turn [n] times over from the empty cache, leave
    the key list with [2 * n] copies of the key, while the map never holds
    more than the one entry. *)
Theorem key_list_grows p p' n :
  p ≠ p' →
  cacheKey h p = cacheKey h p' →
  payload_length h p ≠ 0%nat →
  payload_length h p' ≠ 0%nat →
  hashCacheKeys (run h initial (alternate p p' n)) = replicate (2 * n) (cacheKey h p)
  ∧ (size (hashCache (run h initial (alternate p p' n))) ≤ 1)%nat.
Proof.
  intros Hne Hkey Hlen Hlen'.
  assert (hashCacheKeys (run h initial (alternate p p' n))
          = replicate (2 * n) (cacheKey h p)
          ∧ (hashCache (run h initial (alternate p p' n)) = ∅
             ∨ hashCache (run h initial (alternate p p' n))
               = {[cacheKey h p := CachedHash p' (compute_tag h p')]})) as [Hkeys Hm].
  2: { split; [done|].
       destruct Hm as [-> | ->]; [rewrite map_size_empty|rewrite map_size_singleton]; lia. }
  induction n as [|n [IHk IHm]]; [by auto|].
  unfold alternate in *. rewrite replicate_S_end, concat_app, run_app.
  set (c := run h initial (concat (replicate n [entity_call p; entity_call p']))) in *.
  cbn [concat app run fold_left]. unfold step. cbn [entity_call c_now c_entity c_options].
  assert (size (hashCache c) <= 1)%nat as Hsize.
  { destruct IHm as [-> | ->]; [rewrite map_size_empty|rewrite map_size_singleton]; lia. }
  assert (∀ e, hashCache c !! cacheKey h p = Some e → entity e ≠ p) as Hmiss.
  { intros e. destruct IHm as [-> | ->].
    - by rewrite lookup_empty.
    - rewrite lookup_singleton_eq. intros [= <-]. simpl. congruence. }
  rewrite (etag_payload h 0%Z p None c), (entitytag_miss h p _ c) by done.
  cbn [snd weak_of].
  set (c1 := store (cacheKey h p) (CachedHash p (compute_tag h p)) c).
  assert (hashCache c1 = {[cacheKey h p := CachedHash p (compute_tag h p)]}
          ∧ hashCacheKeys c1 = replicate (2 * n) (cacheKey h p) ++ [cacheKey h p])
    as [Hm1 Hk1].
  { unfold c1, store.
    replace (HASH_CACHE_SIZE <=? size (hashCache c))%nat with false
      by (symmetry; apply Nat.leb_gt; unfold HASH_CACHE_SIZE; lia).
    cbn [hashCache hashCacheKeys]. rewrite IHk. split; [|done].
    destruct IHm as [-> | ->]; [apply insert_empty|apply insert_singleton_eq]. }
  assert (∀ e, hashCache c1 !! cacheKey h p' = Some e → entity e ≠ p') as Hmiss1.
  { intros e. rewrite <- Hkey, Hm1, lookup_singleton_eq. intros [= <-]. done. }
  rewrite etag_payload, entitytag_miss by done. cbn [snd]. rewrite <- Hkey.
  unfold store. rewrite Hm1, map_size_singleton, Hk1.
  replace (HASH_CACHE_SIZE <=? 1)%nat with false by done.
  cbn [hashCache hashCacheKeys]. split.
  - replace (2 * S n)%nat with (2 * n + 1 + 1)%nat by lia.
    by rewrite !replicate_add.
  - right. apply insert_singleton_eq.
Qed.

End ContentCalls.

(** * The metadata cache *)

Section MetadataCache.

Variable h : heap.

Lemma sweep_lookup now (m : gmap string cached_stat) key :
  (HASH_CACHE_SIZE < size m)%nat →
  sweep now m !! key
  = match m !! key with
    | Some e => if decide (STAT_CACHE_TTL ≤ now - timestamp e)%Z then None else Some e
    | None => None
    end.
Proof.
  intros Hbig. unfold sweep. apply Nat.ltb_lt in Hbig. rewrite Hbig.
  rewrite fold_delete_lookup.
  destruct (m !! key) as [e|] eqn:Hget.
  - destruct (decide (STAT_CACHE_TTL ≤ now - timestamp e)%Z) as [Hold|Hyoung].
    + rewrite decide_True; [done|].
      apply list_elem_of_fmap. exists (key, e). split; [done|].
      apply list_elem_of_filter. split; [done|]. by apply elem_of_map_to_list.
    + rewrite decide_False; [done|].
      intros ([key' e'] & -> & Hin)%list_elem_of_fmap.
      apply list_elem_of_filter in Hin as [Hold Hin]. simpl in *.
      apply elem_of_map_to_list in Hin. rewrite Hget in Hin. by simplify_eq.
  - by destruct (decide _).
Qed.

(** X8. The sweep of the metadata cache: a map of at most
    [HASH_CACHE_SIZE] entries is left as it is, however old its entries;
    from a larger map the sweep removes the entries that are
    [STAT_CACHE_TTL] old or older, all of them and nothing else. *)
Theorem sweep_removes_the_stale now (m : gmap string cached_stat) :
  ((size m ≤ HASH_CACHE_SIZE)%nat → sweep now m = m)
  ∧ ((HASH_CACHE_SIZE < size m)%nat →
     ∀ key e, sweep now m !! key = Some e
              ↔ m !! key = Some e ∧ (now - timestamp e < STAT_CACHE_TTL)%Z).
Proof.
  split.
  - intros Hsmall. unfold sweep.
    by replace (HASH_CACHE_SIZE <? size m)%nat with false
      by (symmetry; apply Nat.ltb_ge; lia).
  - intros Hbig key e. rewrite sweep_lookup by done.
    destruct (m !! key) as [e'|]; [|by intuition].
    destruct (decide (STAT_CACHE_TTL ≤ now - timestamp e')%Z).
    + split; [done|]. intros [[= ->] ?]. lia.
    + split; [intros [= ->]; split; [done|lia]|by intros [? _]].
Qed.

(** A sweep that finds every entry young removes nothing. *)
Lemma sweep_young now (m : gmap string cached_stat) :
  (∀ key e, m !! key = Some e → (now - timestamp e < STAT_CACHE_TTL)%Z) →
  sweep now m = m.
Proof.
  intros Hyoung. apply map_eq. intros key.
  destruct (m !! key) as [e|] eqn:Hget.
  - by eapply sweep_keeps; eauto.
  - destruct (sweep now m !! key) as [e|] eqn:Hs; [|done].
    apply sweep_lookup_Some in Hs. congruence.
Qed.

(** X9. The metadata cache is not bounded by [HASH_CACHE_SIZE]: calls on
    descriptors with keys of their own, made within one [STAT_CACHE_TTL]
    window, leave one entry each, however many they are, since the sweep
    finds nothing old enough to remove. *)
Theorem stat_cache_grows sts : ∀ ks t,
  Forall2 (λ k stat, stat_fields (c_entity k) = Some stat) ks sts →
  NoDup (statKey <$> sts) →
  Forall (λ k, (t ≤ c_now k < t + STAT_CACHE_TTL)%Z) ks →
  size (statCache (run h initial ks)) = length sts
  ∧ (∀ key, is_Some (statCache (run h initial ks) !! key) ↔ key ∈ statKey <$> sts)
  ∧ (∀ key e, statCache (run h initial ks) !! key = Some e → (t ≤ timestamp e)%Z).
Proof.
  induction sts as [|stat sts IH] using rev_ind; intros ks t Hks Hdup Hclock.
  { apply Forall2_nil_inv_r in Hks as ->. simpl.
    split; [by rewrite map_size_empty|]. split.
    - intros key. rewrite lookup_empty. split; [by intros [? ?]|by inversion 1].
    - intros key e. by rewrite lookup_empty. }
  apply Forall2_app_inv_r in Hks as (ks' & kl & Hks' & Hkl & ->).
  apply Forall2_cons_inv_r in Hkl as (k & kl' & Hk & Hnil & ->).
  apply Forall2_nil_inv_r in Hnil as ->.
  rewrite fmap_app in Hdup. apply NoDup_app in Hdup as (Hdup & Hfresh & _).
  apply Forall_app in Hclock as [Hclock Hnow]. apply Forall_inv in Hnow. simpl in Hnow.
  destruct (IH ks' t) as (Hsize & Hdom & Hts); [done..|].
  assert (statKey stat ∉ statKey <$> sts) as Hnew.
  { intros Hin. apply (Hfresh (statKey stat)); [done|left]. }
  assert (statCache (run h initial ks') !! statKey stat = None) as Hnone.
  { destruct (statCache (run h initial ks') !! statKey stat) eqn:Hget; [|done].
    destruct Hnew. apply Hdom. by eexists. }
  rewrite run_snoc. unfold step.
  rewrite (etag_stats h _ _ stat) by done.
  rewrite stattag_miss by (intros e; by rewrite Hnone).
  cbn [snd statCache].
  rewrite sweep_young.
  2: { intros key e. destruct (decide (key = statKey stat)) as [->|Hne].
       - rewrite lookup_insert_eq. intros [= <-]. simpl. lia.
       - rewrite lookup_insert_ne by done. intros Hget%Hts. lia. }
  split; [|split].
  - rewrite map_size_insert_None, length_app by done. simpl. lia.
  - intros key. rewrite fmap_app, elem_of_app, <- Hdom. simpl.
    rewrite list_elem_of_singleton.
    destruct (decide (key = statKey stat)) as [->|Hne].
    + rewrite lookup_insert_eq. split; [auto|by eexists].
    + rewrite lookup_insert_ne by done. tauto.
  - intros key e. destruct (decide (key = statKey stat)) as [->|Hne].
    + rewrite lookup_insert_eq. intros [= <-]. simpl. lia.
    + rewrite lookup_insert_ne by done. apply Hts.
Qed.

Lemma stattag_stat_ok now stat wk c : stat_ok c → stat_ok (stattag now stat wk c).2.
Proof.
  intros Hok.
  destruct (statCache c !! statKey stat) as [e|] eqn:Hget.
  - destruct (decide (now - timestamp e < STAT_CACHE_TTL)%Z) as [Hyoung|Hold].
    + by rewrite (stattag_hit now stat wk c e).
    + rewrite stattag_miss by (intros e'; rewrite Hget; intros [= <-]; lia).
      intros key e' Hget'%sweep_lookup_Some.
      destruct (decide (key = statKey stat)) as [->|Hne].
      * rewrite lookup_insert_eq in Hget'. simplify_eq. simpl. eauto.
      * rewrite lookup_insert_ne in Hget' by done. by apply Hok.
  - rewrite stattag_miss by (intros e'; by rewrite Hget).
    intros key e' Hget'%sweep_lookup_Some.
    destruct (decide (key = statKey stat)) as [->|Hne].
    + rewrite lookup_insert_eq in Hget'. simplify_eq. simpl. eauto.
    + rewrite lookup_insert_ne in Hget' by done. by apply Hok.
Qed.

Lemma etag_stat_ok now v opts c : stat_ok c → stat_ok (etag h now v opts c).2.
Proof.
  intros Hok.
  destruct (stat_fields v) as [stat|] eqn:Hf.
  { rewrite (etag_stats h now v stat) by done. by apply stattag_stat_ok. }
  destruct (as_payload v) as [p|] eqn:Hp.
  - apply as_payload_value_of in Hp. subst v.
    intros key e. rewrite caches_frame_payload. apply Hok.
  - assert (isstats v = false) as Hs.
    { destruct (isstats v) eqn:Hs; [|done].
      apply isstats_fields in Hs as [stat Hs]. congruence. }
    unfold etag. rewrite Hs, Hp.
    destruct (is_nullish v); [done|].
    by destruct (negb false && negb (is_string v) && negb (isBuffer v)).
Qed.

Lemma run_stat_ok ks : stat_ok (run h initial ks).
Proof.
  apply run_invariant; [|intros c k; apply etag_stat_ok].
  intros key e He. simpl in He. by rewrite lookup_empty in He.
Qed.

(** X10. Weak and strong: after any sequence of calls, asking for the weak
    tag of an entity gives the strong tag behind [W/] and has the same
    effect on the caches, and raises what asking for the strong tag
    raises; without the option a descriptor gets its weak tag and a string
    or Buffer its strong tag. *)
Theorem weak_tag_is_prefixed_strong ks now v :
  (etag h now v weakly (run h initial ks)).1
  = match (etag h now v strong (run h initial ks)).1 with
    | Return t => Return ("W/" +:+ t)
    | Throw e => Throw e
    end
  ∧ (etag h now v weakly (run h initial ks)).2 = (etag h now v strong (run h initial ks)).2
  ∧ etag h now v None (run h initial ks)
    = etag h now v (if isstats v then weakly else strong) (run h initial ks).
Proof.
  pose proof (run_stat_ok ks) as Hok. set (c := run h initial ks) in *.
  destruct (stat_fields v) as [stat|] eqn:Hf.
  { assert (isstats v = true) as -> by (apply isstats_fields; by eexists).
    rewrite !(etag_stats h now v stat) by done. cbn [fst snd weak_of weakly strong].
    split; [|split]; [| |done].
    - destruct (statCache c !! statKey stat) as [e|] eqn:Hget.
      + destruct (decide (now - timestamp e < STAT_CACHE_TTL)%Z) as [Hyoung|Hold].
        * rewrite !(stattag_hit now stat _ c e) by done. simpl.
          by destruct (Hok _ _ Hget) as [-> _].
        * by rewrite !stattag_miss by (intros e'; rewrite Hget; intros [= <-]; lia).
      + by rewrite !stattag_miss by (intros e'; by rewrite Hget).
    - destruct (statCache c !! statKey stat) as [e|] eqn:Hget.
      + destruct (decide (now - timestamp e < STAT_CACHE_TTL)%Z) as [Hyoung|Hold].
        * by rewrite !(stattag_hit now stat _ c e).
        * by rewrite !stattag_miss by (intros e'; rewrite Hget; intros [= <-]; lia).
      + by rewrite !stattag_miss by (intros e'; by rewrite Hget). }
  assert (isstats v = false) as Hs.
  { destruct (isstats v) eqn:Hs; [|done].
    apply isstats_fields in Hs as [stat Hs]. congruence. }
  rewrite Hs.
  destruct (as_payload v) as [p|] eqn:Hp.
  - apply as_payload_value_of in Hp. subst v.
    rewrite !etag_payload. cbn [fst snd weak_of weakly strong].
    split; [|split]; [| |done].
    + by destruct (entitytag_cases h p true c)
        as [[Hlen ->]|[(Hlen & e & Hget & Heq & ->)|(Hlen & Hmiss & ->)]];
        [rewrite entitytag_empty|rewrite (entitytag_hit h p _ c e)|rewrite entitytag_miss].
    + by destruct (entitytag_cases h p true c)
        as [[Hlen ->]|[(Hlen & e & Hget & Heq & ->)|(Hlen & Hmiss & ->)]];
        [rewrite entitytag_empty|rewrite (entitytag_hit h p _ c e)|rewrite entitytag_miss].
  - unfold etag. rewrite Hs, Hp.
    destruct (is_nullish v); [done|].
    by destruct (negb false && negb (is_string v) && negb (isBuffer v)).
Qed.

End MetadataCache.

(** * Keys and tags as text *)

Section Text.

Lemma split_at_dash a : ∀ b r r',
  dashless a = true → dashless b = true →
  a +:+ String "-" r = b +:+ String "-" r' → a = b ∧ r = r'.
Proof.
  induction a as [|c a IH]; intros [|c' b] r r' Ha Hb Heq; simpl in *.
  - by injection Heq.
  - injection Heq as <- _. by rewrite Ascii.eqb_refl in Hb.
  - injection Heq as -> _. by rewrite Ascii.eqb_refl in Ha.
  - injection Heq as <- Heq.
    apply andb_true_iff in Ha as [_ Ha]. apply andb_true_iff in Hb as [_ Hb].
    destruct (IH b r r' Ha Hb Heq) as [-> ->]. done.
Qed.

Lemma append_inv_tail a : ∀ b q, a +:+ q = b +:+ q → a = b.
Proof.
  assert (∀ x y, String.length (x +:+ y) = (String.length x + String.length y)%nat) as Hlen.
  { induction x as [|c x IH]; intros y; simpl; [done|]. by rewrite IH. }
  induction a as [|c a IH]; intros [|c' b] q Heq; simpl in *.
  - done.
  - apply (f_equal String.length) in Heq. rewrite !Hlen in Heq. simpl in Heq. lia.
  - apply (f_equal String.length) in Heq. rewrite !Hlen in Heq. simpl in Heq. lia.
  - injection Heq as <- Heq. by rewrite (IH b q Heq).
Qed.

Lemma dec_uint_dashless d : dashless (DecimalString.NilZero.string_of_uint d) = true.
Proof.
  destruct d; try done;
    simpl; (match goal with |- dashless (DecimalString.NilEmpty.string_of_uint ?d) = _ =>
              induction d; simpl; auto end).
Qed.

Lemma hex_uint_dashless d : dashless (HexadecimalString.NilZero.string_of_uint d) = true.
Proof.
  destruct d; try done;
    simpl; (match goal with |- dashless (HexadecimalString.NilEmpty.string_of_uint ?d) = _ =>
              induction d; simpl; auto end).
Qed.

Lemma dec_uint_nonempty d : DecimalString.NilZero.string_of_uint d ≠ EmptyString.
Proof. by destruct d. Qed.

Lemma hex_uint_nonempty d : HexadecimalString.NilZero.string_of_uint d ≠ EmptyString.
Proof. by destruct d. Qed.

(** A digit string in front of a dash is read back without ambiguity,
    whether it carries a sign or not. *)
Lemma dashless_not_signed a r b r' :
  dashless a = true → a ≠ EmptyString →
  a +:+ String "-" r ≠ String "-" (b +:+ String "-" r').
Proof.
  intros Ha Hne. destruct a as [|c a]; [done|]. simpl in *.
  intros [= -> _]. by rewrite Ascii.eqb_refl in Ha.
Qed.

Lemma dec_Z_split z z' r r' :
  dec_Z z +:+ String "-" r = dec_Z z' +:+ String "-" r' → dec_Z z = dec_Z z' ∧ r = r'.
Proof.
  unfold dec_Z, DecimalString.NilZero.string_of_int.
  destruct (Z.to_int z) as [d|d], (Z.to_int z') as [d'|d']; intros Heq.
  - by apply split_at_dash; auto using dec_uint_dashless.
  - exfalso. revert Heq. apply dashless_not_signed;
      auto using dec_uint_dashless, dec_uint_nonempty.
  - exfalso. symmetry in Heq. revert Heq. apply dashless_not_signed;
      auto using dec_uint_dashless, dec_uint_nonempty.
  - simpl in Heq. injection Heq as Heq.
    apply split_at_dash in Heq as [-> ->]; auto using dec_uint_dashless.
Qed.

Lemma hex_Z_split z z' r r' :
  hex_Z z +:+ String "-" r = hex_Z z' +:+ String "-" r' → hex_Z z = hex_Z z' ∧ r = r'.
Proof.
  unfold hex_Z, HexadecimalString.NilZero.string_of_int.
  destruct (Z.to_hex_int z) as [d|d], (Z.to_hex_int z') as [d'|d']; intros Heq.
  - by apply split_at_dash; auto using hex_uint_dashless.
  - exfalso. revert Heq. apply dashless_not_signed;
      auto using hex_uint_dashless, hex_uint_nonempty.
  - exfalso. symmetry in Heq. revert Heq. apply dashless_not_signed;
      auto using hex_uint_dashless, hex_uint_nonempty.
  - simpl in Heq. injection Heq as Heq.
    apply split_at_dash in Heq as [-> ->]; auto using hex_uint_dashless.
Qed.

Lemma dec_Z_inj z z' : dec_Z z = dec_Z z' → z = z'.
Proof.
  intros Heq. unfold dec_Z in Heq.
  assert (∀ x, DecimalString.NilZero.int_of_string
                 (DecimalString.NilZero.string_of_int (Z.to_int x)) = Some (Z.to_int x)) as Hback.
  { intros x. apply DecimalString.NilZero.isi; destruct x; simpl; try done;
      intros [= Hnil]; by apply DecimalPos.Unsigned.to_uint_nonnil in Hnil. }
  apply (f_equal DecimalString.NilZero.int_of_string) in Heq.
  rewrite !Hback in Heq. injection Heq as Heq.
  by rewrite <- (DecimalZ.of_to z), <- (DecimalZ.of_to z'), Heq.
Qed.

Lemma hex_Z_inj z z' : hex_Z z = hex_Z z' → z = z'.
Proof.
  intros Heq. unfold hex_Z in Heq.
  assert (∀ x, HexadecimalString.NilZero.int_of_string
                 (HexadecimalString.NilZero.string_of_int (Z.to_hex_int x))
               = Some (Z.to_hex_int x)) as Hback.
  { intros x. apply HexadecimalString.NilZero.isi; destruct x; simpl; try done;
      intros [= Hnil]; by apply HexadecimalPos.Unsigned.to_uint_nonnil in Hnil. }
  apply (f_equal HexadecimalString.NilZero.int_of_string) in Heq.
  rewrite !Hback in Heq. injection Heq as Heq.
  by rewrite <- (HexadecimalZ.of_to z), <- (HexadecimalZ.of_to z'), Heq.
Qed.

Lemma statKey_inj stat stat' :
  statKey stat = statKey stat' → fs.ino stat = fs.ino stat' ∧ fs.mtime stat = fs.mtime stat'.
Proof.
  unfold statKey. intros Heq.
  apply dec_Z_split in Heq as [Hino Hmtime].
  split; by apply dec_Z_inj.
Qed.

(** X11. The key of the metadata cache tells descriptors apart by inode
    and modification time: two descriptors have the same key exactly when
    both agree, whatever their sizes and change times. *)
Theorem stat_key_identifies_inode_and_mtime stat stat' :
  statKey stat = statKey stat'
  ↔ fs.ino stat = fs.ino stat' ∧ fs.mtime stat = fs.mtime stat'.
Proof.
  split; [apply statKey_inj|]. unfold statKey. by intros [-> ->].
Qed.

(** X12. A metadata tag can be read back: two descriptors have the same
    freshly computed tag exactly when they have the same size and the same
    modification time. *)
Theorem stat_tag_identifies_size_and_mtime stat stat' :
  stat_tag stat = stat_tag stat'
  ↔ fs.size stat = fs.size stat' ∧ fs.mtime stat = fs.mtime stat'.
Proof.
  split; [|unfold stat_tag; by intros [-> ->]].
  unfold stat_tag, quote. intros Heq. simpl in Heq. injection Heq as Heq.
  apply hex_Z_split in Heq as [Hsize Heq].
  apply append_inv_tail in Heq.
  split; by apply hex_Z_inj.
Qed.

End Text.

Section ServedTags.

Variable h : heap.

(** X13. What the metadata cache can get wrong is the size only: after any
    sequence of calls, the tag returned for a descriptor is the tag of a
    descriptor with the same modification time, strong or weak as asked. *)
Theorem served_stat_tag_has_the_mtime ks now v stat opts :
  stat_fields v = Some stat →
  ∃ size', (etag h now v opts (run h initial ks)).1
           = Return (render (weak_of opts true)
                       (metadata_tag_spec size' (fs.mtime stat))).
Proof.
  intros Hf. rewrite (etag_stats h now v stat) by done. cbn [fst].
  pose proof (run_stat_ok h ks) as Hok. set (c := run h initial ks) in *.
  destruct (statCache c !! statKey stat) as [e|] eqn:Hget.
  - destruct (decide (now - timestamp e < STAT_CACHE_TTL)%Z) as [Hyoung|Hold].
    + rewrite (stattag_hit now stat _ c e) by done.
      destruct (Hok _ _ Hget) as (Hweak & stat' & Hkey & Hstrong).
      apply statKey_inj in Hkey as [_ Hmtime].
      exists (fs.size stat'). cbn [fst]. rewrite Hweak, Hstrong.
      unfold stat_tag, metadata_tag_spec. rewrite Hmtime. by destruct (weak_of opts true).
    + exists (fs.size stat).
      by rewrite stattag_miss by (intros e'; rewrite Hget; intros [= <-]; lia).
  - exists (fs.size stat). by rewrite stattag_miss by (intros e'; by rewrite Hget).
Qed.

End ServedTags.

(** * The digest and the key of a payload *)

Section DigestAndKey.

Variable h : heap.

Lemma be_bytes_length n x : length (Sha1.be_bytes n x) = n.
Proof. induction n as [|n IH]; simpl; [done|]. by rewrite IH. Qed.

Lemma digest_length bs : length (Sha1.digest bs) = 20%nat.
Proof. unfold Sha1.digest. cbv zeta. by rewrite !length_app, !be_bytes_length. Qed.

(** Twenty bytes in base64 are 27 characters and one padding sign. *)
Lemma base64_of_twenty (d : list N) :
  length d = 20%nat →
  String.length (String.substring 0 27 (Base64.encode d 20)) = 27%nat
  ∧ Base64.encode d 20 = String.substring 0 27 (Base64.encode d 20) +:+ "=".
Proof.
  intros Hlen.
  do 20 (destruct d as [|? d]; [discriminate Hlen|]).
  destruct d; [|discriminate Hlen].
  cbn [Base64.encode]. split; reflexivity.
Qed.

(** X14. The hash part of a content tag is always 27 characters long: it
    is the base64 SHA-1 digest without its one padding sign, so cutting it
    at 27 loses nothing of the digest. *)
Theorem hash_part_is_the_whole_digest p :
  let hash := String.substring 0 27 (sha1_base64 (payload_bytes h p)) in
  String.length hash = 27%nat
  ∧ sha1_base64 (payload_bytes h p) = hash +:+ "="
  ∧ compute_tag h p = quote +:+ hex_N (byte_len h p) +:+ "-" +:+ hash +:+ quote.
Proof.
  cbv zeta. unfold sha1_base64. cbv zeta.
  rewrite digest_length.
  destruct (base64_of_twenty (Sha1.digest (payload_bytes h p)) (digest_length _)) as [H27 Hpad].
  split; [done|]. split; [done|].
  unfold compute_tag, sha1_base64. cbv zeta. by rewrite digest_length.
Qed.

Lemma hex_N_inj n n' : hex_N n = hex_N n' → n = n'.
Proof.
  unfold hex_N. intros Heq.
  assert (∀ x, HexadecimalString.NilZero.uint_of_string
                 (HexadecimalString.NilZero.string_of_uint (N.to_hex_uint x))
               = Some (N.to_hex_uint x)) as Hback.
  { intros x. apply HexadecimalString.NilZero.usu. destruct x; [done|].
    apply HexadecimalPos.Unsigned.to_uint_nonnil. }
  apply (f_equal HexadecimalString.NilZero.uint_of_string) in Heq.
  rewrite !Hback in Heq. injection Heq as Heq.
  by rewrite <- (HexadecimalN.Unsigned.of_to n), <- (HexadecimalN.Unsigned.of_to n'), Heq.
Qed.

Lemma compute_tag_length p p' :
  compute_tag h p = compute_tag h p' → byte_len h p = byte_len h p'.
Proof.
  unfold compute_tag, quote. cbv zeta. intros Heq. simpl in Heq. injection Heq as Heq.
  apply split_at_dash in Heq as [Heq _]; [by apply hex_N_inj|apply hex_uint_dashless..].
Qed.

(** X15. Payloads of different byte lengths never get the same tag:
    whatever calls came before either call, the answers differ. *)
Theorem different_lengths_different_tags ks ks' now now' p p' opts :
  byte_len h p ≠ byte_len h p' →
  (etag h now (value_of p) opts (run h initial ks)).1
  ≠ (etag h now' (value_of p') opts (run h initial ks')).1.
Proof.
  intros Hne. rewrite !etag_payload_result. intros [= Heq].
  apply Hne, compute_tag_length.
  unfold render in Heq. destruct (weak_of opts false); [|done].
  by apply (String.app_inj "W/").
Qed.

Lemma nth_error_lookup {A} (l : list A) i : nth_error l i = l !! i.
Proof. revert i. induction l as [|x l IH]; intros [|i]; simpl; auto. Qed.

Lemma last_index {A} (l : list A) :
  nth_error l (N.to_nat (N.of_nat (length l) - 1)) = last l.
Proof.
  rewrite nth_error_lookup, last_lookup. f_equal. lia.
Qed.

Lemma encode_scalar_length c :
  (1 ≤ length (Utf8.encode_scalar c))%nat
  ∧ (0x80 ≤ c → (2 ≤ length (Utf8.encode_scalar c))%nat)
  ∧ (0x10000 ≤ c → length (Utf8.encode_scalar c) = 4%nat).
Proof.
  unfold Utf8.encode_scalar.
  destruct (c <? 0x80) eqn:H1; [apply N.ltb_lt in H1|apply N.ltb_ge in H1];
    [simpl; split; [lia|split; intros; lia]|].
  destruct (c <? 0x800) eqn:H2; [apply N.ltb_lt in H2|apply N.ltb_ge in H2];
    [simpl; split; [lia|split; intros; lia]|].
  destruct (c <? 0x10000) eqn:H3; [apply N.ltb_lt in H3|apply N.ltb_ge in H3];
    simpl; split; try lia; split; intros; lia.
Qed.

(** Every code unit gives at least one byte, and every code unit from 128
    on accounts for at least one byte more. *)
Lemma encode_length n : ∀ s,
  (length s ≤ n)%nat →
  (length s + length (filter (λ c : N, (0x80 ≤ c)%N) s) ≤ length (Utf8.encode s))%nat.
Proof.
  induction n as [|n IH]; intros [|c rest] Hn; cbn [length] in Hn; try done; try lia.
  rewrite filter_cons. cbn [Utf8.encode length].
  destruct (Utf8.is_high_surrogate c) eqn:Hhi.
  { unfold Utf8.is_high_surrogate in Hhi. apply andb_true_iff in Hhi as [Hc _].
    apply N.leb_le in Hc.
    rewrite decide_True by lia.
    destruct rest as [|d rest']; [cbn; lia|].
    destruct (Utf8.is_low_surrogate d) eqn:Hlo.
    - unfold Utf8.is_low_surrogate in Hlo. apply andb_true_iff in Hlo as [Hd _].
      apply N.leb_le in Hd.
      rewrite filter_cons, decide_True by lia. rewrite length_app.
      destruct (encode_scalar_length (0x10000 + N.shiftl (c - 0xD800) 10 + (d - 0xDC00)))
        as (_ & _ & Hfour).
      rewrite Hfour by (generalize (N.shiftl (c - 0xD800) 10); lia).
      specialize (IH rest'). cbn [length] in *. lia.
    - rewrite length_app. specialize (IH (d :: rest')).
      cbn [length Utf8.replacement] in *. lia. }
  destruct (Utf8.is_low_surrogate c) eqn:Hlo.
  { unfold Utf8.is_low_surrogate in Hlo. apply andb_true_iff in Hlo as [Hc _].
    apply N.leb_le in Hc.
    rewrite decide_True by lia. rewrite length_app. specialize (IH rest).
    cbn [length Utf8.replacement] in *. lia. }
  rewrite length_app. specialize (IH rest).
  destruct (encode_scalar_length c) as (H1 & H2 & _).
  destruct (decide (0x80 ≤ c)); cbn [length] in *; lia.
Qed.

Lemma byteLength_ascii s :
  Forall (λ c, c < 0x80) s → byteLength s = N.of_nat (length s).
Proof.
  unfold byteLength. intros Hs. f_equal.
  induction Hs as [|c rest Hc Hs IH]; [done|].
  cbn [Utf8.encode].
  replace (Utf8.is_high_surrogate c) with false
    by (symmetry; unfold Utf8.is_high_surrogate; apply andb_false_iff; left;
        apply N.leb_gt; lia).
  replace (Utf8.is_low_surrogate c) with false
    by (symmetry; unfold Utf8.is_low_surrogate; apply andb_false_iff; left;
        apply N.leb_gt; lia).
  unfold Utf8.encode_scalar. apply N.ltb_lt in Hc. rewrite Hc. simpl. by rewrite IH.
Qed.

(** X16. The key of a Buffer and of an ASCII string is what the comment in
    the source says: the byte length, the first byte and the last byte, in
    decimal with dashes between. *)
Theorem key_is_length_first_last :
  (∀ r b0 bs bl,
     h r = b0 :: bs → last (h r) = Some bl →
     cacheKey h (PBuffer r)
     = dec_N (N.of_nat (length (h r))) +:+ "-" +:+ dec_N (Byte.to_N b0)
         +:+ "-" +:+ dec_N (Byte.to_N bl))
  ∧ (∀ c0 s cl,
       Forall (λ c, c < 0x80) (c0 :: s) → last (c0 :: s) = Some cl →
       cacheKey h (PString (c0 :: s))
       = dec_N (N.of_nat (length (c0 :: s))) +:+ "-" +:+ dec_N c0 +:+ "-" +:+ dec_N cl).
Proof.
  split.
  - intros r b0 bs bl Hr Hlast. unfold cacheKey, byte_len, byteAt.
    rewrite last_index, Hlast, Hr. done.
  - intros c0 s cl Hascii Hlast. unfold cacheKey, byte_len, charCodeAt.
    rewrite (byteLength_ascii _ Hascii), last_index, Hlast. done.
Qed.

(** X17. For a string with a code unit from 128 on, the UTF-8 length is
    larger than the number of code units, [charCodeAt(len - 1)] reads past
    the end, and the key ends in [NaN]; so two such strings with the same
    UTF-8 length and the same first code unit have the same key. *)
Theorem key_of_non_ascii_string c0 s :
  Exists (λ c : N, (0x80 ≤ c)%N) (c0 :: s) →
  cacheKey h (PString (c0 :: s))
  = dec_N (byteLength (c0 :: s)) +:+ "-" +:+ dec_N c0 +:+ "-NaN"
  ∧ (∀ s', Exists (λ c : N, (0x80 ≤ c)%N) (c0 :: s') →
           byteLength (c0 :: s') = byteLength (c0 :: s) →
           cacheKey h (PString (c0 :: s')) = cacheKey h (PString (c0 :: s))).
Proof.
  assert (∀ t, Exists (λ c : N, (0x80 ≤ c)%N) (c0 :: t) →
               cacheKey h (PString (c0 :: t))
               = dec_N (byteLength (c0 :: t)) +:+ "-" +:+ dec_N c0 +:+ "-NaN") as Hkey.
  { intros t Hex. unfold cacheKey, byte_len, charCodeAt.
    replace (nth_error (c0 :: t) (N.to_nat (byteLength (c0 :: t) - 1))) with (@None N);
      [done|].
    symmetry. apply nth_error_None.
    pose proof (encode_length (length (c0 :: t)) (c0 :: t) (le_n _)) as Hlen.
    assert (1 ≤ length (filter (λ c : N, (0x80 ≤ c)%N) (c0 :: t)))%nat as Hcount.
    { apply Exists_exists in Hex as (c & Hin & Hc).
      assert (c ∈ filter (λ c : N, (0x80 ≤ c)%N) (c0 :: t)) as Hf
        by (apply list_elem_of_filter; split; [exact Hc|exact Hin]).
      destruct (filter (λ c : N, (0x80 ≤ c)%N) (c0 :: t)); [by inversion Hf|simpl; lia]. }
    unfold byteLength. lia. }
  intros Hex. split; [by apply Hkey|].
  intros s' Hex' Hlen. by rewrite !Hkey, Hlen.
Qed.

End DigestAndKey.

(** * Further results on sample inputs *)

Lemma fillers_keys_NoDup : NoDup (cacheKey no_heap <$> fillers).
Proof.
  pose proof filler_keys_NoDup as Hdup. rewrite fmap_cons in Hdup.
  by apply NoDup_cons in Hdup as [_ Hdup].
Qed.

Lemma fillers_fill_the_cache :
  size (hashCache (run no_heap initial (entity_call <$> fillers))) = HASH_CACHE_SIZE.
Proof.
  destruct (run_distinct no_heap fillers (entity_call <$> fillers)) as [-> _].
  - apply entity_call_entities.
  - apply fillers_keys_NoDup.
  - apply filler_nonempty.
  - unfold fillers. by rewrite length_fmap, length_seq.
  - rewrite map_size_list_to_map, length_fmap.
    + unfold fillers. by rewrite length_fmap, length_seq.
    + rewrite entry_keys. apply fillers_keys_NoDup.
Qed.

Lemma key_list_covers_map_witness :
  ∃ oldestKey rest,
    hashCacheKeys (run no_heap initial (entity_call <$> fillers)) = oldestKey :: rest.
Proof.
  apply (proj2 (proj2 (key_list_covers_map no_heap (entity_call <$> fillers)))).
  rewrite fillers_fill_the_cache. apply le_n.
Defined.


Lemma capacity_without_collisions_witness :
  within_capacity (etag no_heap 0 (value_of hello) None initial).2.
Proof.
  destruct (capacity_without_collisions no_heap) as [Hinit Hstep].
  apply Hstep; [exact Hinit|].
  intros p e _ Hget. simpl in Hget. by rewrite lookup_empty in Hget.
Defined.

Lemma repeated_calls_settle_witness :
  run no_heap (step no_heap initial (entity_call hello))
    [Call (value_of hello) weakly 5; Call (value_of hello) strong 9]
  = step no_heap initial (entity_call hello).
Proof.
  refine (proj1 _). apply (repeated_calls_settle no_heap initial hello (entity_call hello)
           [Call (value_of hello) weakly 5; Call (value_of hello) strong 9]);
    [reflexivity|repeat constructor].
Defined.

Lemma caches_are_independent_witness :
  hashCache (etag no_heap 3 (VStats a_file) None hello_cached).2 = hashCache hello_cached
  ∧ hashCacheKeys (etag no_heap 3 (VStats a_file) None hello_cached).2
    = hashCacheKeys hello_cached.
Proof.
  exact (proj2 (caches_are_independent no_heap 3 None hello_cached)
           (VStats a_file) a_file eq_refl).
Defined.

Lemma most_recent_window_witness :
  hashCacheKeys (run no_heap initial (entity_call <$> filler 0 :: fillers))
  = cacheKey no_heap <$> fillers.
Proof.
  destruct (most_recent_window no_heap (filler 0 :: fillers)
              (entity_call <$> filler 0 :: fillers)) as [Hkeys _].
  - apply entity_call_entities.
  - apply filler_keys_NoDup.
  - apply (filler_nonempty (0%nat :: seq 1 1000)).
  - rewrite Hkeys. clear Hkeys.
    replace (length (filler 0 :: fillers) - HASH_CACHE_SIZE)%nat with 1%nat; [reflexivity|].
    cbn [length]. unfold fillers. rewrite length_fmap, length_seq. reflexivity.
Defined.

Lemma key_list_grows_witness :
  hashCacheKeys (run no_heap initial (alternate aXa aYa 3)) = replicate 6 "3-97-97"
  ∧ (size (hashCache (run no_heap initial (alternate aXa aYa 3))) ≤ 1)%nat.
Proof.
  apply (key_list_grows no_heap aXa aYa 3); [discriminate|reflexivity|simpl; lia..].
Defined.

Lemma aged_entries_size : size aged_entries = 1001%nat.
Proof. by vm_compute. Qed.

Lemma sweep_removes_the_stale_witness :
  sweep 5500 (<["1-0" := CachedStat (stat_tag a_file) ("W/" +:+ stat_tag a_file) 0]> ∅)
  = <["1-0" := CachedStat (stat_tag a_file) ("W/" +:+ stat_tag a_file) 0]> ∅
  ∧ sweep 5500 aged_entries !! statKey (file 1000) = Some (aged_entry 1000).2.
Proof.
  split.
  - apply (proj1 (sweep_removes_the_stale 5500 _)).
    rewrite map_size_insert_None, map_size_empty by apply lookup_empty.
    unfold HASH_CACHE_SIZE. lia.
  - apply (proj2 (sweep_removes_the_stale 5500 aged_entries)).
    + rewrite aged_entries_size. unfold HASH_CACHE_SIZE. lia.
    + split; [by vm_compute|]. simpl. unfold STAT_CACHE_TTL. lia.
Defined.

Lemma many_files_keys_NoDup : NoDup (statKey <$> many_files).
Proof. apply NoDup_by_code. by vm_compute. Qed.

Lemma stat_cache_grows_witness :
  size (statCache (run no_heap initial (stat_call <$> many_files))) = 1001%nat.
Proof.
  destruct (stat_cache_grows no_heap many_files (stat_call <$> many_files) 0)
    as (Hsize & _ & _).
  - apply Forall2_fmap_l, Forall_Forall2_diag, Forall_forall. by intros stat _.
  - apply many_files_keys_NoDup.
  - apply Forall_fmap, Forall_forall. intros stat _. simpl. unfold STAT_CACHE_TTL. lia.
  - rewrite Hsize. clear Hsize. unfold many_files. rewrite length_fmap, length_seq.
    reflexivity.
Defined.

Lemma stat_key_identifies_inode_and_mtime_witness :
  statKey a_file = statKey a_longer_file
  ∧ (statKey (file 1) = statKey a_file → fs.ino (file 1) = fs.ino a_file).
Proof.
  split.
  - by apply (proj2 (stat_key_identifies_inode_and_mtime a_file a_longer_file)).
  - intros Heq. by apply (proj1 (stat_key_identifies_inode_and_mtime (file 1) a_file)).
Defined.

Lemma stat_tag_identifies_size_and_mtime_witness :
  stat_tag a_file ≠ stat_tag a_longer_file.
Proof.
  intros Heq.
  apply (proj1 (stat_tag_identifies_size_and_mtime a_file a_longer_file)) in Heq as [Hsize _].
  discriminate Hsize.
Defined.

Lemma served_stat_tag_has_the_mtime_witness :
  ∃ size', (etag no_heap 1 (VStats a_file) None
              (run no_heap initial [stat_call a_longer_file])).1
           = Return ("W/" +:+ metadata_tag_spec size' 0).
Proof.
  exact (served_stat_tag_has_the_mtime no_heap [stat_call a_longer_file] 1
           (VStats a_file) a_file None eq_refl).
Defined.

Lemma different_lengths_different_tags_witness :
  (etag no_heap 0 (value_of hello) None initial).1
  ≠ (etag no_heap 0 (value_of aXa) None hello_cached).1.
Proof.
  apply (different_lengths_different_tags no_heap [] [entity_call hello] 0 0 hello aXa None).
  discriminate.
Defined.

Lemma key_is_length_first_last_witness :
  cacheKey two_buffers (PBuffer 0%nat) = "3-1-3"
  ∧ cacheKey no_heap hello = "11-72-100".
Proof.
  destruct (key_is_length_first_last two_buffers) as [Hbuffer _].
  destruct (key_is_length_first_last no_heap) as [_ Hstring].
  split.
  - by rewrite (Hbuffer 0%nat x01 [x02; x03] x03).
  - unfold hello. cbn [js list_ascii_of_string map].
    rewrite (Hstring _ _ (N_of_ascii "d")); [done| |done].
    repeat constructor.
Defined.

Lemma key_of_non_ascii_string_witness :
  cacheKey no_heap (PString cafe) = "5-99-NaN"
  ∧ cacheKey no_heap (PString cure) = cacheKey no_heap (PString cafe).
Proof.
  assert (Exists (λ c : N, (0x80 ≤ c)%N) cafe) as Hcafe
    by (do 3 apply Exists_cons_tl; apply Exists_cons_hd; lia).
  assert (Exists (λ c : N, (0x80 ≤ c)%N) cure) as Hcure
    by (do 3 apply Exists_cons_tl; apply Exists_cons_hd; lia).
  destruct (key_of_non_ascii_string no_heap 0x63 [0x61; 0x66; 0xE9] Hcafe) as [Hkey Hsame].
  unfold cafe, cure. split; [by rewrite Hkey|].
  by apply (Hsame [0x75; 0x72; 0xE9]).
Defined.
